(** * A model of [JSONSourceCode] (src/languages/json-source-code.js)

    The class sits between a parsed JSON document (momoa AST plus token
    array) and ESLint's rule runner.  This development embeds the class
    in Rocq -- its private fields become a record, its methods functions
    that pass this record along -- and proves the properties the prose
    specification states about token indexing, token navigation,
    traversal, parent lookup and inline configuration comments. *)

From Stdlib Require Import ZArith NArith List String Ascii Lia Bool.
From stdpp Require Import base numbers option list gmap.
From Equations Require Import Equations.

Local Open Scope Z_scope.
Set Warnings "-register-all".

(** ** JavaScript strings

    A JavaScript string is a sequence of UTF-16 code units.  Only the
    operations the class uses are modelled. *)

Abbreviation jsstring := (list N).

(** A string literal of the source, as code units. *)
Definition js (s : String.string) : jsstring :=
  List.map N_of_ascii (list_ascii_of_string s).

(** [String.prototype.endsWith(suffix)]. *)
Definition endsWith (s suffix : jsstring) : bool :=
  (length suffix <=? length s)%nat
  && bool_decide (drop (length s - length suffix)%nat s = suffix).

(** The relative-index clamping of [String.prototype.slice]. *)
Definition clamp_index (len k : Z) : Z :=
  if k <? 0 then Z.max (len + k) 0 else Z.min k len.

(** [String.prototype.slice(start, end)]; [None] is an omitted [end]. *)
Definition slice (s : jsstring) (start : Z) (end_ : option Z) : jsstring :=
  let len := Z.of_nat (length s) in
  let from := clamp_index len start in
  let to := match end_ with None => len | Some e => clamp_index len e end in
  if to <=? from then []
  else take (Z.to_nat (to - from)) (drop (Z.to_nat from) s).

(** The class [\s] of an ECMAScript regular expression: WhiteSpace and
    LineTerminator code points (all of them in the basic plane). *)
Definition is_regexp_space (c : N) : bool :=
  existsb (N.eqb c)
    [ 0x09; 0x0A; 0x0B; 0x0C; 0x0D; 0x20; 0xA0; 0x1680;
      0x2000; 0x2001; 0x2002; 0x2003; 0x2004; 0x2005; 0x2006; 0x2007;
      0x2008; 0x2009; 0x200A; 0x2028; 0x2029; 0x202F; 0x205F; 0x3000;
      0xFEFF ]%N.

(** ** Tokens *)

Record Position := mkPosition { line : Z; column : Z; offset : Z }.

Record SourceLocation := mkLoc { loc_start : Position; loc_end : Position }.

(** A momoa token: its [type], [range] and [loc].  The tokens of the
    array all carry a [range]: the constructor reads it of every one of
    them. *)
Record Token := mkToken {
  tok_type : jsstring;
  tok_range : Z * Z;
  tok_loc : SourceLocation
}.

(** [token.type.endsWith("Comment")] *)
Definition isCommentToken (token : Token) : bool :=
  endsWith (tok_type token) (js "Comment").

(** ** processTokens *)

Record ProcessedTokens := mkProcessed {
  pt_comments : list Token;
  pt_starts : gmap Z nat;
  pt_ends : gmap Z nat
}.

(** One turn of the [for] loop of [processTokens], at index [i]. *)
Definition processTokens_body (i : nat) (token : Token) (acc : ProcessedTokens)
  : ProcessedTokens :=
  {| pt_comments :=
       if isCommentToken token then pt_comments acc ++ [token]
       else pt_comments acc;
     pt_starts := <[ fst (tok_range token) := i ]> (pt_starts acc);
     pt_ends := <[ snd (tok_range token) := i ]> (pt_ends acc) |}.

(** The loop, from index [i] on, over the tokens that remain. *)
Fixpoint processTokens_from (i : nat) (tokens : list Token)
  (acc : ProcessedTokens) : ProcessedTokens :=
  match tokens with
  | [] => acc
  | token :: rest =>
      processTokens_from (S i) rest (processTokens_body i token acc)
  end.

Definition processTokens (tokens : list Token) : ProcessedTokens :=
  processTokens_from 0 tokens
    {| pt_comments := []; pt_starts := ∅; pt_ends := ∅ |}.

(** ** The syntax tree

    A momoa node is a JavaScript object; [node_id] stands for its
    identity (two references are [===] exactly when the ids agree).  The
    child sequence is the one momoa's visitor keys enumerate: [body] of a
    Document, [members] of an Object, [name] then [value] of a Member,
    [elements] of an Array, [value] of an Element.  The [range] property
    is optional: the parser sets it only when asked for ranges, and not
    on every kind of node (an Element has none); [None] is a node
    without it. *)

Inductive Node := mkNode {
  node_id : nat;
  node_type : jsstring;
  node_range : option (Z * Z);
  node_children : list Node
}.

(** The document node: a node that also carries the token array, which
    the parser leaves out unless it was asked for tokens. *)
Record DocumentNode := mkDocument {
  doc_node : Node;
  doc_tokens : option (list Token)
}.

(** What momoa's [iterator] yields: [{ node, parent, phase }], with
    [parent] undefined at the root and [phase] one of the strings
    ["enter"] and ["exit"]. *)
Record IteratorStep := mkIteratorStep {
  it_node : Node;
  it_parent : option Node;
  it_phase : jsstring
}.

(** Modelled from the spec: momoa's [iterator] (package
    @humanwhocodes/momoa, not part of this repository's sources).  It
    walks the tree depth-first; for every node it yields an enter step
    before the node's children are visited and an exit step after all of
    them have been, and the children are visited in the order of the
    node's child sequence. *)
Fixpoint visitNode (parent : option Node) (node : Node) {struct node}
  : list IteratorStep :=
  mkIteratorStep node parent (js "enter")
  :: (fix visitAll (children : list Node) : list IteratorStep :=
        match children with
        | [] => []
        | child :: rest => visitNode (Some node) child ++ visitAll rest
        end) (node_children node)
  ++ [mkIteratorStep node parent (js "exit")].

Definition iterator (root : Node) : list IteratorStep := visitNode None root.

(** ** Values built or returned by the class *)

(** Object literals the class creates ([{ ruleId: null, message, loc }],
    [{ config: { rules }, loc }]) are kept as property lists, own
    properties in creation order. *)
Inductive JsValue :=
| JsNull
| JsNumber (z : Z)
| JsString (s : jsstring)
| JsArray (items : list JsValue)
| JsObject (props : list (jsstring * JsValue)).

(** Property read [o.key]; [None] is [undefined]. *)
Definition get_prop (o : JsValue) (key : jsstring) : option JsValue :=
  match o with
  | JsObject props => snd <$> List.find (fun kv => bool_decide (fst kv = key)) props
  | _ => None
  end.

Definition js_of_position (p : Position) : JsValue :=
  JsObject [ (js "line", JsNumber (line p));
             (js "column", JsNumber (column p));
             (js "offset", JsNumber (offset p)) ].

(** The location object of a token, as a value. *)
Definition js_of_loc (l : SourceLocation) : JsValue :=
  JsObject [ (js "start", js_of_position (loc_start l));
             (js "end", js_of_position (loc_end l)) ].

(** A reference that may be [null] or [undefined]. *)
Inductive jsref (A : Type) :=
| Null
| Undefined
| Ref (a : A).
Arguments Null {A}.
Arguments Undefined {A}.
Arguments Ref {A} a.

(** [tokens[i]]: an array read gives [undefined] out of range. *)
Definition ref_of_option {A : Type} (o : option A) : jsref A :=
  match o with Some a => Ref a | None => Undefined end.

Inductive JsError :=
| TypeError (message : jsstring)
| Error (message : jsstring).

(** A call either returns or throws. *)
Inductive outcome (A : Type) :=
| Returned (a : A)
| Threw (e : JsError).
Arguments Returned {A} a.
Arguments Threw {A} e.

#[global] Instance outcome_bind : MBind outcome := fun A B f x =>
  match x with
  | Returned a => f a
  | Threw e => Threw e
  end.

(** [array.forEach] with a callback that pushes onto arrays of the
    enclosing scope (the state [S]) and may throw. *)
Fixpoint forEach {A S : Type} (callback : S -> A -> outcome S)
  (array : list A) (s : S) : outcome S :=
  match array with
  | [] => Returned s
  | a :: rest => s' ← callback s a; forEach callback rest s'
  end.

(** [array.filter] with a predicate that may throw. *)
Fixpoint filterM {A : Type} (predicate : A -> outcome bool) (array : list A)
  : outcome (list A) :=
  match array with
  | [] => Returned []
  | a :: rest =>
      keep ← predicate a;
      kept ← filterM predicate rest;
      Returned (if (keep : bool) then a :: kept else kept)
  end.

(** ** Traversal steps *)

(** [JSONTraversalStep]: the [target], the [phase] (1 on entering, 2 on
    leaving) and the [args] pair [[node, parent]]. *)
Record JSONTraversalStep := mkStep {
  target : Node;
  phase : Z;
  args : Node * option Node
}.

(** [Array.prototype.values()]: an iterator object with its own cursor
    into the array it was made from. *)
Record ArrayIterator := mkArrayIterator {
  iterated : list JSONTraversalStep;
  nextIndex : nat
}.

(** [iterator.next()]: the element under the cursor, if any, and the
    iterator moved by one. *)
Definition next (it : ArrayIterator) : option JSONTraversalStep * ArrayIterator :=
  match iterated it !! nextIndex it with
  | Some s => (Some s, mkArrayIterator (iterated it) (S (nextIndex it)))
  | None => (None, it)
  end.

(** What [traverse] hands out: the steps array itself on the computing
    call, an array iterator afterwards. *)
Inductive StepIterable :=
| StepsArray (array : list JSONTraversalStep)
| StepsValues (it : ArrayIterator).

(** The steps a [for ... of] loop over the iterable sees. *)
Definition iterate (r : StepIterable) : list JSONTraversalStep :=
  match r with
  | StepsArray array => array
  | StepsValues it => drop (nextIndex it) (iterated it)
  end.

(** Calls of [next] until the iterator is done, at most [fuel] of them:
    the steps seen and the iterator as it is left. *)
Fixpoint drain (fuel : nat) (it : ArrayIterator)
  : list JSONTraversalStep * ArrayIterator :=
  match fuel with
  | O => ([], it)
  | S fuel =>
      match next it with
      | (Some s, it') => let (seen, last) := drain fuel it' in (s :: seen, last)
      | (None, it') => ([], it')
      end
  end.

(** A complete [for ... of] loop over the iterable, as an operation on
    the object: the steps the loop sees and the object afterwards.  The
    loop asks the iterable for its iterator and calls [next] until it is
    done.  An array makes a new iterator for every loop and is itself
    left as it was; an array iterator is its own iterator, so the loop
    moves the cursor of the object it was given.  One call of [next]
    more than there are elements is enough to reach the end. *)
Definition for_of (r : StepIterable) : list JSONTraversalStep * StepIterable :=
  match r with
  | StepsArray array =>
      (fst (drain (S (length array)) (mkArrayIterator array 0)), StepsArray array)
  | StepsValues it =>
      let (seen, last) := drain (S (length (iterated it))) it in (seen, StepsValues last)
  end.

(** ** The INLINE_CONFIG pattern

    [/^\s*(?:eslint(?:-enable|-disable(?:(?:-next)?-line)?)?)(?:\s|$)/u],
    written out as the matcher it denotes. *)

(** The rest of [s] after [prefix], when [s] starts with it. *)
Fixpoint strip_prefix (prefix s : jsstring) : option jsstring :=
  match prefix, s with
  | [], _ => Some s
  | p :: prefix', c :: s' => if N.eqb p c then strip_prefix prefix' s' else None
  | _ :: _, [] => None
  end.

(** [\s*] in front of a literal that starts with a letter skips every
    leading space: giving one back could not help the match. *)
Fixpoint skip_spaces (s : jsstring) : jsstring :=
  match s with
  | c :: s' => if is_regexp_space c then skip_spaces s' else s
  | [] => []
  end.

(** [(?:\s|$)] at the current position (no [m] flag: [$] is the end of
    the input). *)
Definition space_or_end (s : jsstring) : bool :=
  match s with
  | [] => true
  | c :: _ => is_regexp_space c
  end.

(** A literal followed by the continuation [k] of the pattern. *)
Definition then_ (literal : String.string) (k : jsstring -> bool) (s : jsstring) : bool :=
  match strip_prefix (js literal) s with
  | Some rest => k rest
  | None => false
  end.

(** [x?] followed by [k]: with [x], or without. *)
Definition optional (x : (jsstring -> bool) -> jsstring -> bool)
  (k : jsstring -> bool) (s : jsstring) : bool :=
  x k s || k s.

(** [INLINE_CONFIG.test(s)] *)
Definition INLINE_CONFIG_test (s : jsstring) : bool :=
  then_ "eslint"
    (optional (fun k r =>
       then_ "-enable" k r
       || then_ "-disable"
            (optional (fun k' => optional (then_ "-next") (then_ "-line" k')) k) r)
     space_or_end)
    (skip_spaces s).

(** ** The class *)

(** What [ConfigCommentParser.parseDirective] returns when it recognises
    a directive. *)
Record DirectiveComment := mkDirectiveComment {
  label : jsstring;
  value : jsstring;
  justification : jsstring
}.

(** What [ConfigCommentParser.parseJSONLikeConfig] returns:
    [{ ok: true, config }] or [{ ok: false, error: { message } }]. *)
Inductive ParseResult :=
| ParseOk (config : JsValue)
| ParseFailed (message : jsstring).

(** An instance of plugin-kit's [Directive]. *)
Record Directive := mkDirective {
  dir_type : jsstring;
  dir_node : Token;
  dir_value : jsstring;
  dir_justification : jsstring
}.

(** The instance: the public fields [ast] and [comments], the text the
    base class keeps, and the private fields [#steps], [#parents],
    [#inlineConfigComments], [#tokenStarts] and [#tokenEnds].  [None] is
    a field still [undefined]; [#parents], a [WeakMap] on node objects,
    is keyed by node identity. *)
Record JSONSourceCode := mkSourceCode {
  text : jsstring;
  ast : DocumentNode;
  steps : option (list JSONTraversalStep);
  parents : gmap nat Node;
  inlineConfigComments : option (list Token);
  comments : list Token;
  tokenStarts : gmap Z nat;
  tokenEnds : gmap Z nat
}.

(** The constructor. *)
Definition new_JSONSourceCode (text : jsstring) (ast : DocumentNode) : JSONSourceCode :=
  let processed := processTokens (default [] (doc_tokens ast)) in
  {| text := text;
     ast := ast;
     steps := None;
     parents := ∅;
     inlineConfigComments := None;
     comments := pt_comments processed;
     tokenStarts := pt_starts processed;
     tokenEnds := pt_ends processed |}.

(** [getParent(node)]; [None] is [undefined]. *)
Definition getParent (this : JSONSourceCode) (node : Node) : option Node :=
  parents this !! node_id node.

(** One turn of the [for ... of] loop of [traverse]. *)
Definition traverse_body (acc : gmap nat Node * list JSONTraversalStep)
  (it : IteratorStep) : gmap nat Node * list JSONTraversalStep :=
  ( match it_parent it with
    | Some parent => <[ node_id (it_node it) := parent ]> (fst acc)
    | None => fst acc
    end,
    snd acc ++ [ mkStep (it_node it)
                   (if decide (it_phase it = js "enter") then 1 else 2)
                   (it_node it, it_parent it) ] ).

(** [traverse()]: the iterable returned and the instance afterwards. *)
Definition traverse (this : JSONSourceCode) : StepIterable * JSONSourceCode :=
  match steps this with
  | Some cached => (StepsValues (mkArrayIterator cached 0), this)
  | None =>
      let '(parents', steps') :=
        fold_left traverse_body (iterator (doc_node (ast this))) (parents this, []) in
      ( StepsArray steps',
        {| text := text this;
           ast := ast this;
           steps := Some steps';
           parents := parents';
           inlineConfigComments := inlineConfigComments this;
           comments := comments this;
           tokenStarts := tokenStarts this;
           tokenEnds := tokenEnds this |} )
  end.

(** [nodeOrToken]: the argument of the token queries. *)
Inductive NodeOrToken :=
| ANode (node : Node)
| AToken (token : Token).

(** [nodeOrToken.range]; [None] is [undefined]. *)
Definition range_of (x : NodeOrToken) : option (Z * Z) :=
  match x with
  | ANode node => node_range node
  | AToken token => Some (tok_range token)
  end.

(** The comment-skipping [while] loop of [getTokenBefore].  The index
    is a natural number, so [previousIndex--] followed by the test
    [previousIndex < 0] is the match on zero or successor. *)
Fixpoint skipCommentsBefore (tokens : list Token) (tokenOrComment : option Token)
  (previousIndex : nat) : jsref Token :=
  match tokenOrComment with
  | None => Undefined
  | Some t =>
      if isCommentToken t then
        match previousIndex with
        | O => Null
        | S previousIndex' =>
            skipCommentsBefore tokens (tokens !! previousIndex') previousIndex'
        end
      else Ref t
  end.

(** The [TypeError] of reading index 0 or 1 of an absent [range] (the
    wording of the message is the engine's). *)
Definition no_range_0 : JsError :=
  TypeError (js "Cannot read properties of undefined (reading '0')").
Definition no_range_1 : JsError :=
  TypeError (js "Cannot read properties of undefined (reading '1')").

(** [getTokenBefore(nodeOrToken, { includeComments })].  Reading
    [nodeOrToken.range[0]] throws when the argument has no [range]. *)
Definition getTokenBefore (this : JSONSourceCode) (nodeOrToken : NodeOrToken)
  (includeComments : bool) : outcome (jsref Token) :=
  match range_of nodeOrToken with
  | None => Threw no_range_0
  | Some range =>
      match tokenStarts this !! fst range with
      | None => Returned Null
      | Some O => Returned Null
      | Some (S previousIndex) =>
          match doc_tokens (ast this) with
          | None => Threw (TypeError (js "Cannot read properties of undefined"))
          | Some tokens =>
              let tokenOrComment := tokens !! previousIndex in
              if includeComments then Returned (ref_of_option tokenOrComment)
              else Returned (skipCommentsBefore tokens tokenOrComment previousIndex)
          end
      end
  end.

(** The comment-skipping [while] loop of [getTokenAfter]. *)
Equations skipCommentsAfter (tokens : list Token) (tokenOrComment : option Token)
  (nextIndex : nat) : jsref Token by wf (length tokens - nextIndex)%nat lt :=
  skipCommentsAfter tokens None nextIndex := Undefined;
  skipCommentsAfter tokens (Some t) nextIndex with isCommentToken t := {
    | false => Ref t
    | true with le_lt_dec (length tokens) (S nextIndex) := {
        | left _ => Null
        | right _ => skipCommentsAfter tokens (tokens !! S nextIndex) (S nextIndex) } }.
Next Obligation. lia. Qed.

(** [getTokenAfter(nodeOrToken, { includeComments })].  Reading
    [nodeOrToken.range[1]] throws when the argument has no [range]. *)
Definition getTokenAfter (this : JSONSourceCode) (nodeOrToken : NodeOrToken)
  (includeComments : bool) : outcome (jsref Token) :=
  match range_of nodeOrToken with
  | None => Threw no_range_1
  | Some range =>
      match tokenEnds this !! snd range with
      | None => Returned Null
      | Some index =>
          let nextIndex := S index in
          match doc_tokens (ast this) with
          | None => Threw (TypeError (js "Cannot read properties of undefined"))
          | Some tokens =>
              if (length tokens <=? nextIndex)%nat then Returned Null
              else
                let tokenOrComment := tokens !! nextIndex in
                if includeComments then Returned (ref_of_option tokenOrComment)
                else Returned (skipCommentsAfter tokens tokenOrComment nextIndex)
          end
      end
  end.

(** The results of the two comment-processing methods. *)
Record DisableDirectives := mkDisableDirectives {
  dd_problems : list JsValue;
  dd_directives : list Directive
}.

Record InlineConfig := mkInlineConfig {
  ic_configs : list JsValue;
  ic_problems : list JsValue
}.

(** [{ ruleId: null, message, loc: comment.loc }] *)
Definition problem_at (message : jsstring) (comment : Token) : JsValue :=
  JsObject [ (js "ruleId", JsNull);
             (js "message", JsString message);
             (js "loc", js_of_loc (tok_loc comment)) ].

(** [{ config: { rules }, loc: comment.loc }] *)
Definition config_at (rules : JsValue) (comment : Token) : JsValue :=
  JsObject [ (js "config", JsObject [ (js "rules", rules) ]);
             (js "loc", js_of_loc (tok_loc comment)) ].

Section Comments.

(** The collaborators from @eslint/plugin-kit: [getText] of the base
    class [TextSourceCodeBase] (applied to the text it keeps), and the
    two methods of [ConfigCommentParser].  [parseDirective] returns
    [undefined] ([None]) for a text it does not recognise. *)
Variable getText : jsstring -> Token -> jsstring.
Variable parseDirective : jsstring -> option DirectiveComment.
Variable parseJSONLikeConfig : jsstring -> ParseResult.

(** [#getCommentValue(comment)] *)
Definition getCommentValue (this : JSONSourceCode) (comment : Token)
  : outcome jsstring :=
  if decide (tok_type comment = js "LineComment") then
    Returned (slice (getText (text this) comment) 2 None)
  else if decide (tok_type comment = js "BlockComment") then
    Returned (slice (getText (text this) comment) 2 (Some (-2)))
  else
    Threw (Error (js "Unexpected comment type '" ++ tok_type comment ++ js "'")).

(** [getInlineConfigNodes()]: the result and the instance afterwards
    (unchanged when the filter throws). *)
Definition getInlineConfigNodes (this : JSONSourceCode)
  : outcome (list Token) * JSONSourceCode :=
  match inlineConfigComments this with
  | Some cached => (Returned cached, this)
  | None =>
      match filterM (fun comment =>
                       v ← getCommentValue this comment;
                       Returned (INLINE_CONFIG_test v))
                    (comments this) with
      | Returned found =>
          ( Returned found,
            {| text := text this;
               ast := ast this;
               steps := steps this;
               parents := parents this;
               inlineConfigComments := Some found;
               comments := comments this;
               tokenStarts := tokenStarts this;
               tokenEnds := tokenEnds this |} )
      | Threw e => (Threw e, this)
      end
  end.

(** The destructuring [const { label, ... } = parseDirective(...)]
    throws on [undefined]. *)
Definition destructure (d : option DirectiveComment) : outcome DirectiveComment :=
  match d with
  | Some d => Returned d
  | None => Threw (TypeError (js "Cannot destructure property 'label' of undefined"))
  end.

(** The callback of the [forEach] in [getDisableDirectives]; the state
    is the pair of arrays [problems] and [directives]. *)
Definition disableDirectives_callback (this : JSONSourceCode)
  (acc : DisableDirectives) (comment : Token) : outcome DisableDirectives :=
  v ← getCommentValue this comment;
  d ← destructure (parseDirective v);
  if bool_decide (label d = js "eslint-disable-line")
     && negb (line (loc_start (tok_loc comment)) =? line (loc_end (tok_loc comment)))
  then
    let message := label d ++ js " comment should not span multiple lines." in
    Returned (mkDisableDirectives
                (dd_problems acc ++ [problem_at message comment])
                (dd_directives acc))
  else if bool_decide (label d = js "eslint-disable")
          || bool_decide (label d = js "eslint-enable")
          || bool_decide (label d = js "eslint-disable-next-line")
          || bool_decide (label d = js "eslint-disable-line")
  then
    let directiveType := slice (label d) (Z.of_nat (length (js "eslint-"))) None in
    Returned (mkDisableDirectives
                (dd_problems acc)
                (dd_directives acc
                   ++ [mkDirective directiveType comment (value d) (justification d)]))
  else Returned acc.

(** [getDisableDirectives()] *)
Definition getDisableDirectives (this : JSONSourceCode)
  : outcome DisableDirectives * JSONSourceCode :=
  match getInlineConfigNodes this with
  | (Returned nodes, this') =>
      (forEach (disableDirectives_callback this') nodes (mkDisableDirectives [] []),
       this')
  | (Threw e, this') => (Threw e, this')
  end.

(** The callback of the [forEach] in [applyInlineConfig]. *)
Definition applyInlineConfig_callback (this : JSONSourceCode)
  (acc : InlineConfig) (comment : Token) : outcome InlineConfig :=
  v ← getCommentValue this comment;
  d ← destructure (parseDirective v);
  if bool_decide (label d = js "eslint") then
    match parseJSONLikeConfig (value d) with
    | ParseOk config =>
        Returned (mkInlineConfig
                    (ic_configs acc ++ [config_at config comment])
                    (ic_problems acc))
    | ParseFailed message =>
        Returned (mkInlineConfig
                    (ic_configs acc)
                    (ic_problems acc ++ [problem_at message comment]))
    end
  else Returned acc.

(** [applyInlineConfig()] *)
Definition applyInlineConfig (this : JSONSourceCode)
  : outcome InlineConfig * JSONSourceCode :=
  match getInlineConfigNodes this with
  | (Returned nodes, this') =>
      (forEach (applyInlineConfig_callback this') nodes (mkInlineConfig [] []),
       this')
  | (Threw e, this') => (Threw e, this')
  end.

(** *** Histories of calls

    An instance in use is the constructor's result after some sequence
    of method calls; [exec] is the instance a call leaves behind. *)
Inductive Call :=
| CallTraverse
| CallGetParent (node : Node)
| CallGetInlineConfigNodes
| CallGetDisableDirectives
| CallApplyInlineConfig
| CallGetTokenBefore (nodeOrToken : NodeOrToken) (includeComments : bool)
| CallGetTokenAfter (nodeOrToken : NodeOrToken) (includeComments : bool).

Definition exec (this : JSONSourceCode) (c : Call) : JSONSourceCode :=
  match c with
  | CallTraverse => snd (traverse this)
  | CallGetInlineConfigNodes => snd (getInlineConfigNodes this)
  | CallGetDisableDirectives => snd (getDisableDirectives this)
  | CallApplyInlineConfig => snd (applyInlineConfig this)
  | CallGetParent _ | CallGetTokenBefore _ _ | CallGetTokenAfter _ _ => this
  end.

Definition run (calls : list Call) (this : JSONSourceCode) : JSONSourceCode :=
  fold_left exec calls this.

Definition is_traverse (c : Call) : bool :=
  match c with CallTraverse => true | _ => false end.

End Comments.

(** ** Auxiliary definitions for the statements *)

(** The map a loop [m.set(key(tokens[i]), i)] builds from index [i] on;
    [processTokens] runs two of them side by side. *)
Fixpoint index_by (key : Token -> Z) (i : nat) (tokens : list Token)
  (m : gmap Z nat) : gmap Z nat :=
  match tokens with
  | [] => m
  | token :: rest => index_by key (S i) rest (<[ key token := i ]> m)
  end.

(** [i] is the last index of [tokens] whose token has key [o]. *)
Definition last_with (key : Token -> Z) (tokens : list Token) (o : Z) (i : nat) : Prop :=
  (exists t, tokens !! i = Some t /\ key t = o)
  /\ (forall j t', (i < j)%nat -> tokens !! j = Some t' -> key t' <> o).

Definition start_of (t : Token) : Z := fst (tok_range t).
Definition end_of (t : Token) : Z := snd (tok_range t).

(** The two offset maps are the ones [processTokens] built from the
    token array of the document (the empty array when it has none). *)
Definition indexed (this : JSONSourceCode) : Prop :=
  tokenStarts this = index_by start_of 0 (default [] (doc_tokens (ast this))) ∅
  /\ tokenEnds this = index_by end_of 0 (default [] (doc_tokens (ast this))) ∅.

(** Two states of the instance over the same document: the methods
    never assign the text, the tree, the comment list or the offset
    maps. *)
Definition same_document (a b : JSONSourceCode) : Prop :=
  ast a = ast b /\ text a = text b /\ comments a = comments b
  /\ tokenStarts a = tokenStarts b /\ tokenEnds a = tokenEnds b.

(** The nodes of the tree under [n], [n] included, parents before
    children and children left to right. *)
Fixpoint nodes_of (n : Node) : list Node :=
  n :: (fix all (children : list Node) : list Node :=
          match children with
          | [] => []
          | child :: rest => nodes_of child ++ all rest
          end) (node_children n).

(** The same nodes, children before parents. *)
Fixpoint nodes_post (n : Node) : list Node :=
  (fix all (children : list Node) : list Node :=
     match children with
     | [] => []
     | child :: rest => nodes_post child ++ all rest
     end) (node_children n) ++ [n].

(** The tree is a tree of objects: no object occurs at two places. *)
Definition distinct_nodes (root : Node) : Prop :=
  NoDup (node_id <$> nodes_of root).

(** The step [traverse] pushes for one item of the iterator. *)
Definition step_of (it : IteratorStep) : JSONTraversalStep :=
  mkStep (it_node it)
         (if decide (it_phase it = js "enter") then 1 else 2)
         (it_node it, it_parent it).

(** The assignment [traverse] makes to [#parents] for one item. *)
Definition record_parent (m : gmap nat Node) (it : IteratorStep) : gmap nat Node :=
  match it_parent it with
  | Some parent => <[ node_id (it_node it) := parent ]> m
  | None => m
  end.

(** The steps [traverse] pushes on entering and on leaving [n]. *)
Definition enter_step (parent : option Node) (n : Node) : JSONTraversalStep :=
  mkStep n 1 (n, parent).

Definition exit_step (parent : option Node) (n : Node) : JSONTraversalStep :=
  mkStep n 2 (n, parent).

(** The steps of the walk below [n], reached from [parent]. *)
Definition walk (parent : option Node) (n : Node) : list JSONTraversalStep :=
  step_of <$> visitNode parent n.

(** [s] is the step of phase [ph] for the node object [n]. *)
Definition step_for (n : Node) (ph : Z) (s : JSONTraversalStep) : Prop :=
  node_id (target s) = node_id n /\ phase s = ph.

(** [s] is a step of phase [ph] for one of the children of [n]. *)
Definition child_step (n : Node) (ph : Z) (s : JSONTraversalStep) : Prop :=
  phase s = ph /\ node_id (target s) ∈ (node_id <$> node_children n).

#[global] Instance step_for_dec n ph s : Decision (step_for n ph s).
Proof. unfold step_for. apply _. Defined.

#[global] Instance child_step_dec n ph s : Decision (child_step n ph s).
Proof. unfold child_step. apply _. Defined.

(** The traversal cache of an instance on which [traverse] has run
    ([traversed = true]) or has not. *)
Definition traversal_state (traversed : bool) (this : JSONSourceCode) : Prop :=
  if traversed then
    steps this = Some (walk None (doc_node (ast this)))
    /\ parents this = fold_left record_parent (iterator (doc_node (ast this))) ∅
  else steps this = None /\ parents this = ∅.

(** [k] calls of [next] on an iterator. *)
Definition advance (k : nat) (it : ArrayIterator) : ArrayIterator :=
  Nat.iter k (fun it => snd (next it)) it.

(** The pair the specification compares steps by. *)
Definition target_phase (s : JSONTraversalStep) : Node * Z := (target s, phase s).

(** The directive parsed from a comment: the first statement of both
    [forEach] callbacks. *)
Definition parsed_directive (getText : jsstring -> Token -> jsstring)
  (parseDirective : jsstring -> option DirectiveComment)
  (this : JSONSourceCode) (comment : Token) : outcome DirectiveComment :=
  v ← getCommentValue getText this comment;
  destructure (parseDirective v).

(** Results side by side: what was pushed first, then what was pushed
    later. *)
Definition dd_append (a b : DisableDirectives) : DisableDirectives :=
  mkDisableDirectives (dd_problems a ++ dd_problems b) (dd_directives a ++ dd_directives b).

Definition ic_append (a b : InlineConfig) : InlineConfig :=
  mkInlineConfig (ic_configs a ++ ic_configs b) (ic_problems a ++ ic_problems b).

(** The configuration entry as Scenario C of the specification writes
    it, [{ rules, loc }], for comparison with [config_at]. *)
Definition scenario_entry (rules : JsValue) (comment : Token) : JsValue :=
  JsObject [ (js "rules", rules);
             (js "loc", js_of_loc (tok_loc comment)) ].

(** The labels that make a directive. *)
Definition directive_labels : list jsstring :=
  [ js "eslint-disable"; js "eslint-enable";
    js "eslint-disable-next-line"; js "eslint-disable-line" ].

(** What one comment makes the callback of [getDisableDirectives] push. *)
Definition directive_of (d : DirectiveComment) (comment : Token) : DisableDirectives :=
  if bool_decide (label d = js "eslint-disable-line")
     && negb (line (loc_start (tok_loc comment)) =? line (loc_end (tok_loc comment)))
  then mkDisableDirectives
         [problem_at (label d ++ js " comment should not span multiple lines.") comment] []
  else if bool_decide (label d ∈ directive_labels)
  then mkDisableDirectives []
         [mkDirective (slice (label d) 7 None) comment (value d) (justification d)]
  else mkDisableDirectives [] [].

(** What one comment makes the callback of [applyInlineConfig] push. *)
Definition config_of (parseJSONLikeConfig : jsstring -> ParseResult)
  (d : DirectiveComment) (comment : Token) : InlineConfig :=
  if bool_decide (label d = js "eslint") then
    match parseJSONLikeConfig (value d) with
    | ParseOk config => mkInlineConfig [config_at config comment] []
    | ParseFailed message => mkInlineConfig [] [problem_at message comment]
    end
  else mkInlineConfig [] [].


(** ** Sample documents

    A JSONC text with inline configuration comments (the scenarios of
    the specification) and a JSON5 text with a nested tree, used to run
    the model on concrete inputs. *)

Definition quote : jsstring := [34%N].
Definition newline : jsstring := [10%N].

Definition sample_text : jsstring :=
  js "/* eslint no-empty-keys: " ++ quote ++ js "error" ++ quote ++ js " */" ++ newline
  ++ js "/* eslint no-empty-keys: not-valid-json*/" ++ newline
  ++ js "{} // eslint-disable-line no-empty-keys -- reason" ++ newline
  ++ js "/* eslint-disable-line no-empty-keys -- reason" ++ newline
  ++ js "*/" ++ newline
  ++ js "// plain note".

Definition sample_token (type : String.string) (from to : Z) (l1 c1 l2 c2 : Z) : Token :=
  mkToken (js type) (from, to)
          (mkLoc (mkPosition l1 c1 from) (mkPosition l2 c2 to)).

Definition comment_C : Token := sample_token "BlockComment" 0 35 1 1 1 36.
Definition comment_D : Token := sample_token "BlockComment" 36 77 2 1 2 42.
Definition lbrace : Token := sample_token "LBrace" 78 79 3 1 3 2.
Definition rbrace : Token := sample_token "RBrace" 79 80 3 2 3 3.
Definition comment_A : Token := sample_token "LineComment" 81 127 3 4 3 50.
Definition comment_B : Token := sample_token "BlockComment" 128 177 4 1 5 3.
Definition comment_note : Token := sample_token "LineComment" 178 191 6 1 6 14.

Definition sample_tokens : list Token :=
  [comment_C; comment_D; lbrace; rbrace; comment_A; comment_B; comment_note].

Definition sample_object : Node := mkNode 1 (js "Object") (Some (78, 80)) [].
Definition sample_root : Node := mkNode 0 (js "Document") (Some (78, 80)) [sample_object].
Definition sample_document : DocumentNode := mkDocument sample_root (Some sample_tokens).

(** Scenario C on its own: the configuration comment and an empty object. *)
Definition scenario_C_text : jsstring :=
  js "/* eslint no-empty-keys: " ++ quote ++ js "error" ++ quote ++ js " */" ++ newline
  ++ js "{}".

Definition scenario_C_document : DocumentNode :=
  mkDocument (mkNode 0 (js "Document") (Some (36, 38)) [mkNode 1 (js "Object") (Some (36, 38)) []])
             (Some [comment_C;
                    sample_token "LBrace" 36 37 2 1 2 2;
                    sample_token "RBrace" 37 38 2 2 2 3]).

(** [getText] as a slice of the text at the range of the token. *)
Definition sample_getText (text : jsstring) (token : Token) : jsstring :=
  slice text (fst (tok_range token)) (Some (snd (tok_range token))).

(** The answers of the directive parser on the comments of the sample. *)
Definition value_C : jsstring := js "no-empty-keys: " ++ quote ++ js "error" ++ quote.
Definition value_D : jsstring := js "no-empty-keys: not-valid-json".
Definition rules_C : JsValue := JsObject [ (js "no-empty-keys", JsString (js "error")) ].
Definition message_D : jsstring := js "Failed to parse JSON from 'no-empty-keys: not-valid-json'".

Definition sample_parseDirective (s : jsstring) : option DirectiveComment :=
  if decide (s = js " eslint " ++ value_C ++ js " ") then
    Some (mkDirectiveComment (js "eslint") value_C [])
  else if decide (s = js " eslint " ++ value_D) then
    Some (mkDirectiveComment (js "eslint") value_D [])
  else if decide (s = js " eslint-disable-line no-empty-keys -- reason") then
    Some (mkDirectiveComment (js "eslint-disable-line") (js "no-empty-keys") (js "reason"))
  else if decide (s = js " eslint-disable-line no-empty-keys -- reason" ++ newline) then
    Some (mkDirectiveComment (js "eslint-disable-line") (js "no-empty-keys") (js "reason"))
  else None.

Definition sample_parseJSONLikeConfig (s : jsstring) : ParseResult :=
  if decide (s = value_C) then ParseOk rules_C else ParseFailed message_D.

(** The tree of [{a: 1, b: [2], c: null}]. *)
Definition member_a : Node :=
  mkNode 2 (js "Member") (Some (1, 5))
    [mkNode 3 (js "Identifier") (Some (1, 2)) []; mkNode 4 (js "Number") (Some (4, 5)) []].
Definition tree_element : Node :=
  mkNode 8 (js "Element") None [mkNode 9 (js "Number") (Some (11, 12)) []].
Definition member_b : Node :=
  mkNode 5 (js "Member") (Some (7, 13))
    [mkNode 6 (js "Identifier") (Some (7, 8)) [];
     mkNode 7 (js "Array") (Some (10, 13)) [tree_element]].
Definition member_c : Node :=
  mkNode 10 (js "Member") (Some (15, 22))
    [mkNode 11 (js "Identifier") (Some (15, 16)) []; mkNode 12 (js "Null") (Some (18, 22)) []].
Definition tree_object : Node := mkNode 1 (js "Object") (Some (0, 23)) [member_a; member_b; member_c].
Definition tree_root : Node := mkNode 0 (js "Document") (Some (0, 23)) [tree_object].
Definition tree_text : jsstring := js "{a: 1, b: [2], c: null}".
Definition tree_document : DocumentNode := mkDocument tree_root None.

(** The tree sample as constructed and after its first traversal. *)
Definition tree_new : JSONSourceCode := new_JSONSourceCode tree_text tree_document.
Definition tree_traversed : JSONSourceCode := snd (traverse tree_new).


(** The sample instance after some calls. *)
Definition sample_calls : list Call :=
  [CallGetDisableDirectives; CallTraverse; CallGetParent sample_object; CallApplyInlineConfig].

Definition sample_instance : JSONSourceCode :=
  run sample_getText sample_parseDirective sample_parseJSONLikeConfig sample_calls
      (new_JSONSourceCode sample_text sample_document).

(** What the scenarios expect of the sample. *)
Definition directive_A : Directive :=
  mkDirective (js "disable-line") comment_A (js "no-empty-keys") (js "reason").

Definition problem_B : JsValue :=
  JsObject [ (js "ruleId", JsNull);
             (js "message",
              JsString (js "eslint-disable-line comment should not span multiple lines."));
             (js "loc", js_of_loc (tok_loc comment_B)) ].

Definition problem_D : JsValue :=
  JsObject [ (js "ruleId", JsNull);
             (js "message", JsString message_D);
             (js "loc", js_of_loc (tok_loc comment_D)) ].

Definition entry_C : JsValue :=
  JsObject [ (js "config", JsObject [ (js "rules", rules_C) ]);
             (js "loc", js_of_loc (tok_loc comment_C)) ].

(** The sample instance as constructed, and what the directive parser
    answers on the comments of scenarios A and C. *)
Definition sample_new : JSONSourceCode := new_JSONSourceCode sample_text sample_document.

Definition parsed_A : DirectiveComment :=
  mkDirectiveComment (js "eslint-disable-line") (js "no-empty-keys") (js "reason").

Definition parsed_C : DirectiveComment := mkDirectiveComment (js "eslint") value_C [].

(** Two tokens that start at the same offset, the first of them empty:
    the case the specification leaves open. *)
Definition empty_token : Token := sample_token "String" 0 0 1 1 1 1.
Definition overlapping_tokens : list Token :=
  [empty_token; sample_token "Number" 0 1 1 1 1 2].

(** The two comment types [#getCommentValue] knows. *)
Definition line_or_block (c : Token) : Prop :=
  tok_type c = js "LineComment" \/ tok_type c = js "BlockComment".

(** The error [#getCommentValue] throws for any other type. *)
Definition unexpected_comment_type (c : Token) : JsError :=
  Error (js "Unexpected comment type '" ++ tok_type c ++ js "'").

(** The predicate of the filter in [getInlineConfigNodes], where the
    value of the comment can be taken. *)
Definition comment_matches (getText : jsstring -> Token -> jsstring)
  (this : JSONSourceCode) (c : Token) : bool :=
  match getCommentValue getText this c with
  | Returned v => INLINE_CONFIG_test v
  | Threw _ => false
  end.

(** The five labels of the INLINE_CONFIG pattern, and the four types a
    directive can have. *)
Definition inline_config_labels : list jsstring := js "eslint" :: directive_labels.

Definition directive_types : list jsstring :=
  [ js "disable"; js "enable"; js "disable-next-line"; js "disable-line" ].

Definition multiline_message : jsstring :=
  js "eslint-disable-line comment should not span multiple lines.".

(** A token array with a comment of a type the class does not know. *)
Definition doc_comment : Token := sample_token "DocComment" 3 12 1 4 1 13.

Definition doc_comment_document : DocumentNode :=
  mkDocument sample_root
    (Some [sample_token "LineComment" 0 2 1 1 1 3; doc_comment;
           sample_token "BlockComment" 13 17 1 14 1 18]).

Definition doc_comment_instance : JSONSourceCode :=
  new_JSONSourceCode (js "// /**doc*/ /**/") doc_comment_document.

(** ** Token index (processTokens) *)

Lemma processTokens_from_starts i tokens acc :
  pt_starts (processTokens_from i tokens acc) = index_by start_of i tokens (pt_starts acc).
Proof.
  revert i acc. induction tokens as [|t rest IH]; intros i acc; simpl; [reflexivity|].
  rewrite IH. reflexivity.
Qed.

Lemma processTokens_from_ends i tokens acc :
  pt_ends (processTokens_from i tokens acc) = index_by end_of i tokens (pt_ends acc).
Proof.
  revert i acc. induction tokens as [|t rest IH]; intros i acc; simpl; [reflexivity|].
  rewrite IH. reflexivity.
Qed.

Lemma index_by_absent key tokens : forall i m o,
  (forall j t, tokens !! j = Some t -> key t <> o) ->
  index_by key i tokens m !! o = m !! o.
Proof.
  induction tokens as [|t rest IH]; intros i m o Hno; simpl; [reflexivity|].
  rewrite IH.
  - apply lookup_insert_ne. exact (Hno O t eq_refl).
  - intros j t' Hj. exact (Hno (S j) t' Hj).
Qed.

Lemma index_by_last key tokens : forall i m o j,
  last_with key tokens o j ->
  index_by key i tokens m !! o = Some (i + j)%nat.
Proof.
  induction tokens as [|t rest IH]; intros i m o j [[tj [Hj Hk]] Hlater].
  - discriminate.
  - simpl. destruct j as [|j].
    + simpl in Hj. injection Hj as ->.
      rewrite index_by_absent.
      * rewrite Nat.add_0_r, Hk. apply lookup_insert_eq.
      * intros j t' Hj'. apply (Hlater (S j) t'); [lia | exact Hj'].
    + rewrite (IH (S i) _ o j).
      * f_equal. lia.
      * split; [exists tj; auto|].
        intros j' t' Hlt Hj'. apply (Hlater (S j') t'); [lia | exact Hj'].
Qed.

(** Every offset either is the key of no token, or has a last token
    carrying it. *)
Lemma last_with_dec key tokens o :
  (forall j t, tokens !! j = Some t -> key t <> o) \/ (exists i, last_with key tokens o i).
Proof.
  induction tokens as [|t rest IH].
  - left. intros j t Hj. discriminate.
  - destruct IH as [Hno | [i [[ti [Hi Hk]] Hlater]]].
    + destruct (decide (key t = o)) as [Heq | Hne].
      * right. exists O. split; [exists t; auto|].
        intros [|j] t' Hlt Hj; [lia|]. exact (Hno j t' Hj).
      * left. intros [|j] t' Hj; [injection Hj as <-; exact Hne | exact (Hno j t' Hj)].
    + right. exists (S i). split; [exists ti; auto|].
      intros [|j] t' Hlt Hj; [lia|]. apply (Hlater j t'); [lia | exact Hj].
Qed.

Lemma index_by_lookup key tokens o k :
  index_by key 0 tokens ∅ !! o = Some k <-> last_with key tokens o k.
Proof.
  split.
  - intros Hlk. destruct (last_with_dec key tokens o) as [Hno | [i Hi]].
    + rewrite index_by_absent in Hlk by exact Hno. rewrite lookup_empty in Hlk. discriminate.
    + rewrite (index_by_last key tokens 0 ∅ o i Hi) in Hlk. injection Hlk as <-. exact Hi.
  - intros Hl. rewrite (index_by_last key tokens 0 ∅ o k Hl). reflexivity.
Qed.

Lemma tokenStarts_new text root tokens :
  tokenStarts (new_JSONSourceCode text (mkDocument root (Some tokens)))
  = index_by start_of 0 tokens ∅.
Proof. unfold new_JSONSourceCode, processTokens; simpl. apply processTokens_from_starts. Qed.

Lemma tokenEnds_new text root tokens :
  tokenEnds (new_JSONSourceCode text (mkDocument root (Some tokens)))
  = index_by end_of 0 tokens ∅.
Proof. unfold new_JSONSourceCode, processTokens; simpl. apply processTokens_from_ends. Qed.

(** C3.  In the instance constructed over a token array, the
    start-offset map sends the start offset of a token to the token's
    index when no later token starts at the same offset, and likewise the
    end-offset map for end offsets.  When two tokens share a start (or
    end) offset, the entry for that offset is not the earlier index: it
    is the index of the last token of the array with that offset, which
    is the later of the two when nothing after it shares the offset. *)
Theorem processTokens_offset_maps (text : jsstring) (root : Node) (tokens : list Token) :
  let this := new_JSONSourceCode text (mkDocument root (Some tokens)) in
  (forall i t, tokens !! i = Some t ->
     ((forall j t', (i < j)%nat -> tokens !! j = Some t' ->
                    fst (tok_range t') <> fst (tok_range t)) ->
      tokenStarts this !! fst (tok_range t) = Some i)
     /\
     ((forall j t', (i < j)%nat -> tokens !! j = Some t' ->
                    snd (tok_range t') <> snd (tok_range t)) ->
      tokenEnds this !! snd (tok_range t) = Some i))
  /\
  (forall i j ti tj, (i < j)%nat -> tokens !! i = Some ti -> tokens !! j = Some tj ->
     (fst (tok_range ti) = fst (tok_range tj) ->
      exists k, tokenStarts this !! fst (tok_range ti) = Some k /\ (j <= k)%nat
                /\ last_with start_of tokens (fst (tok_range ti)) k
                /\ ((forall j' t', (j < j')%nat -> tokens !! j' = Some t' ->
                                   fst (tok_range t') <> fst (tok_range tj)) -> k = j))
     /\
     (snd (tok_range ti) = snd (tok_range tj) ->
      exists k, tokenEnds this !! snd (tok_range ti) = Some k /\ (j <= k)%nat
                /\ last_with end_of tokens (snd (tok_range ti)) k
                /\ ((forall j' t', (j < j')%nat -> tokens !! j' = Some t' ->
                                   snd (tok_range t') <> snd (tok_range tj)) -> k = j))).
Proof.
  intros this. subst this. rewrite tokenStarts_new, tokenEnds_new.
  assert (Hshare : forall key i j ti tj, (i < j)%nat ->
            tokens !! i = Some ti -> tokens !! j = Some tj -> key ti = key tj ->
            exists k, index_by key 0 tokens ∅ !! key ti = Some k /\ (j <= k)%nat
                      /\ last_with key tokens (key ti) k
                      /\ ((forall j' t', (j < j')%nat -> tokens !! j' = Some t' ->
                                         key t' <> key tj) -> k = j)).
  { intros key i j ti tj Hlt Hi Hj Heq.
    destruct (last_with_dec key tokens (key ti)) as [Hno | [k Hk]].
    - exfalso. exact (Hno i ti Hi eq_refl).
    - exists k. split; [apply index_by_lookup; exact Hk|].
      assert (Hjk : (j <= k)%nat).
      { destruct (le_lt_dec j k) as [Hle | Hgt]; [exact Hle|].
        exfalso. destruct Hk as [_ Hlater].
        apply (Hlater j tj Hgt Hj). symmetry. exact Heq. }
      split; [exact Hjk|]. split; [exact Hk|].
      intros Hlast. destruct (decide (k = j)) as [-> | Hne]; [reflexivity|].
      exfalso. destruct Hk as [[tk [Hk Hkey]] _].
      apply (Hlast k tk); [lia | exact Hk | congruence]. }
  split.
  - intros i t Hi. split; intros Hlater.
    + apply (index_by_lookup start_of). split; [exists t; auto | exact Hlater].
    + apply (index_by_lookup end_of). split; [exists t; auto | exact Hlater].
  - intros i j ti tj Hlt Hi Hj. split; intros Heq.
    + exact (Hshare start_of i j ti tj Hlt Hi Hj Heq).
    + exact (Hshare end_of i j ti tj Hlt Hi Hj Heq).
Qed.

(** ** Token navigation (getTokenBefore, getTokenAfter) *)

Lemma skipCommentsAfter_step tokens tokenOrComment nextIndex :
  skipCommentsAfter tokens tokenOrComment nextIndex =
  match tokenOrComment with
  | None => Undefined
  | Some t =>
      if isCommentToken t then
        if (length tokens <=? S nextIndex)%nat then Null
        else skipCommentsAfter tokens (tokens !! S nextIndex) (S nextIndex)
      else Ref t
  end.
Proof.
  destruct tokenOrComment as [t|]; simp skipCommentsAfter; [|reflexivity].
  destruct (isCommentToken t); simpl; [|reflexivity].
  destruct (le_lt_dec (length tokens) (S nextIndex)) as [Hle | Hlt]; simpl.
  - apply Nat.leb_le in Hle. rewrite Hle. reflexivity.
  - apply Nat.leb_gt in Hlt. rewrite Hlt. reflexivity.
Qed.

(** What the backward loop returns when started inside the array: a
    token that is no comment, the nearest one at or before the start, or
    [null] when everything back to the first token is a comment. *)
Lemma skipCommentsBefore_spec tokens : forall p, (p < length tokens)%nat ->
  match skipCommentsBefore tokens (tokens !! p) p with
  | Null => forall j t, (j <= p)%nat -> tokens !! j = Some t -> isCommentToken t = true
  | Ref t => isCommentToken t = false /\
             exists j, (j <= p)%nat /\ tokens !! j = Some t /\
               forall k t', (j < k <= p)%nat -> tokens !! k = Some t' -> isCommentToken t' = true
  | Undefined => False
  end.
Proof.
  induction p as [|p IH]; intros Hp.
  - destruct (lookup_lt_is_Some_2 tokens 0%nat Hp) as [t Ht]. rewrite Ht. simpl.
    destruct (isCommentToken t) eqn:Hc.
    + intros j t' Hj Hl. assert (j = 0)%nat as -> by lia. congruence.
    + split; [exact Hc|]. exists 0%nat. split; [lia|]. split; [exact Ht|].
      intros k t' Hk. lia.
  - destruct (lookup_lt_is_Some_2 tokens (S p) Hp) as [t Ht]. rewrite Ht. simpl.
    destruct (isCommentToken t) eqn:Hc.
    + specialize (IH ltac:(lia)).
      destruct (skipCommentsBefore tokens (tokens !! p) p) as [| |r].
      * intros j t' Hj Hl. destruct (decide (j = S p)) as [-> | Hne].
        -- congruence.
        -- apply (IH j t'); [lia | exact Hl].
      * exact IH.
      * destruct IH as [Hr [j [Hj [Hl Hbetween]]]]. split; [exact Hr|].
        exists j. split; [lia|]. split; [exact Hl|].
        intros k t' Hk Hlk. destruct (decide (k = S p)) as [-> | Hne].
        -- congruence.
        -- apply (Hbetween k t'); [lia | exact Hlk].
    + split; [exact Hc|]. exists (S p). split; [lia|]. split; [exact Ht|].
      intros k t' Hk. lia.
Qed.

(** The forward loop, likewise. *)
Lemma skipCommentsAfter_spec tokens : forall k n,
  (length tokens - n = k)%nat -> (n < length tokens)%nat ->
  match skipCommentsAfter tokens (tokens !! n) n with
  | Null => forall j t, (n <= j)%nat -> tokens !! j = Some t -> isCommentToken t = true
  | Ref t => isCommentToken t = false /\
             exists j, (n <= j)%nat /\ tokens !! j = Some t /\
               forall i t', (n <= i < j)%nat -> tokens !! i = Some t' -> isCommentToken t' = true
  | Undefined => False
  end.
Proof.
  induction k as [|k IH]; intros n Hk Hn; [lia|].
  destruct (lookup_lt_is_Some_2 tokens n Hn) as [t Ht].
  rewrite skipCommentsAfter_step, Ht.
  destruct (isCommentToken t) eqn:Hc.
  - destruct (length tokens <=? S n)%nat eqn:Hend.
    + apply Nat.leb_le in Hend. intros j t' Hj Hl.
      assert (j < length tokens)%nat by (apply lookup_lt_is_Some; eauto).
      assert (j = n) as -> by lia. congruence.
    + apply Nat.leb_gt in Hend. specialize (IH (S n) ltac:(lia) Hend).
      destruct (skipCommentsAfter tokens (tokens !! S n) (S n)) as [| |r].
      * intros j t' Hj Hl. destruct (decide (j = n)) as [-> | Hne].
        -- congruence.
        -- apply (IH j t'); [lia | exact Hl].
      * exact IH.
      * destruct IH as [Hr [j [Hj [Hl Hbetween]]]]. split; [exact Hr|].
        exists j. split; [lia|]. split; [exact Hl|].
        intros i t' Hi Hli. destruct (decide (i = n)) as [-> | Hne].
        -- congruence.
        -- apply (Hbetween i t'); [lia | exact Hli].
  - split; [exact Hc|]. exists n. split; [lia|]. split; [exact Ht|].
    intros i t' Hi. lia.
Qed.

Lemma new_indexed txt doc : indexed (new_JSONSourceCode txt doc).
Proof.
  unfold indexed, new_JSONSourceCode, processTokens; simpl.
  split; [apply processTokens_from_starts | apply processTokens_from_ends].
Qed.

Lemma indexed_start_in_range this tokens o i :
  indexed this -> doc_tokens (ast this) = Some tokens ->
  tokenStarts this !! o = Some i -> (i < length tokens)%nat.
Proof.
  intros [Hs _] Htok Hlk. rewrite Hs, Htok in Hlk. simpl in Hlk.
  apply index_by_lookup in Hlk. destruct Hlk as [[t [Ht _]] _].
  apply lookup_lt_is_Some. eauto.
Qed.

Lemma indexed_end_in_range this tokens o i :
  indexed this -> doc_tokens (ast this) = Some tokens ->
  tokenEnds this !! o = Some i -> (i < length tokens)%nat.
Proof.
  intros [_ He] Htok Hlk. rewrite He, Htok in Hlk. simpl in Hlk.
  apply index_by_lookup in Hlk. destruct Hlk as [[t [Ht _]] _].
  apply lookup_lt_is_Some. eauto.
Qed.

Lemma indexed_no_tokens this o :
  indexed this -> doc_tokens (ast this) = None ->
  tokenStarts this !! o = None /\ tokenEnds this !! o = None.
Proof.
  intros [Hs He] Htok. rewrite Hs, He, Htok. simpl. split; apply lookup_empty.
Qed.

Lemma getTokenBefore_located this x r includeComments :
  indexed this -> range_of x = Some r ->
  match tokenStarts this !! fst r with
  | None | Some O => getTokenBefore this x includeComments = Returned Null
  | Some (S p) =>
      exists tokens, doc_tokens (ast this) = Some tokens /\ (S p < length tokens)%nat /\
        getTokenBefore this x includeComments =
        Returned (if includeComments then ref_of_option (tokens !! p)
                  else skipCommentsBefore tokens (tokens !! p) p)
  end.
Proof.
  intros Hix Hr. unfold getTokenBefore. rewrite Hr.
  destruct (tokenStarts this !! fst r) as [[|p]|] eqn:Hlk; try reflexivity.
  destruct (doc_tokens (ast this)) as [tokens|] eqn:Htok.
  - exists tokens. split; [reflexivity|]. split.
    + exact (indexed_start_in_range this tokens _ _ Hix Htok Hlk).
    + destruct includeComments; reflexivity.
  - destruct (indexed_no_tokens this (fst r) Hix Htok) as [Hnone _]. congruence.
Qed.

Lemma getTokenAfter_located this x r includeComments :
  indexed this -> range_of x = Some r ->
  match tokenEnds this !! snd r with
  | None => getTokenAfter this x includeComments = Returned Null
  | Some i =>
      exists tokens, doc_tokens (ast this) = Some tokens /\ (i < length tokens)%nat /\
        getTokenAfter this x includeComments =
        if (length tokens <=? S i)%nat then Returned Null
        else Returned (if includeComments then ref_of_option (tokens !! S i)
                       else skipCommentsAfter tokens (tokens !! S i) (S i))
  end.
Proof.
  intros Hix Hr. unfold getTokenAfter. rewrite Hr.
  destruct (tokenEnds this !! snd r) as [i|] eqn:Hlk; try reflexivity.
  destruct (doc_tokens (ast this)) as [tokens|] eqn:Htok.
  - exists tokens. split; [reflexivity|]. split.
    + exact (indexed_end_in_range this tokens _ _ Hix Htok Hlk).
    + destruct (length tokens <=? S i)%nat; [reflexivity|].
      destruct includeComments; reflexivity.
  - destruct (indexed_no_tokens this (snd r) Hix Htok) as [_ Hnone]. congruence.
Qed.

Section Histories.

Variable getText : jsstring -> Token -> jsstring.
Variable parseDirective : jsstring -> option DirectiveComment.
Variable parseJSONLikeConfig : jsstring -> ParseResult.

Local Abbreviation exec := (exec getText parseDirective parseJSONLikeConfig).
Local Abbreviation run := (run getText parseDirective parseJSONLikeConfig).
Local Abbreviation getInlineConfigNodes := (getInlineConfigNodes getText).

Lemma traverse_document this :
  same_document this (snd (traverse this)).
Proof.
  unfold traverse, same_document. destruct (steps this); simpl; [tauto|].
  destruct (fold_left _ _ _); simpl. tauto.
Qed.

Lemma getInlineConfigNodes_document this :
  same_document this (snd (getInlineConfigNodes this)).
Proof.
  unfold getInlineConfigNodes, same_document.
  destruct (inlineConfigComments this); simpl; [tauto|].
  destruct (filterM _ _); simpl; tauto.
Qed.

Lemma exec_document this c : same_document this (exec this c).
Proof.
  destruct c; simpl; try (unfold same_document; tauto).
  - apply traverse_document.
  - apply getInlineConfigNodes_document.
  - unfold getDisableDirectives.
    pose proof (getInlineConfigNodes_document this) as H.
    destruct (getInlineConfigNodes this) as [[nodes|e] this']; exact H.
  - unfold applyInlineConfig.
    pose proof (getInlineConfigNodes_document this) as H.
    destruct (getInlineConfigNodes this) as [[nodes|e] this']; exact H.
Qed.

Lemma run_document calls : forall this, same_document this (run calls this).
Proof.
  induction calls as [|c calls IH]; intros this; simpl.
  - unfold same_document; tauto.
  - pose proof (exec_document this c) as H1. pose proof (IH (exec this c)) as H2.
    unfold same_document in *. intuition congruence.
Qed.

Lemma run_indexed calls txt doc :
  indexed (run calls (new_JSONSourceCode txt doc)).
Proof.
  pose proof (new_indexed txt doc) as [Hs He].
  pose proof (run_document calls (new_JSONSourceCode txt doc)) as (Ha & _ & _ & Hs' & He').
  unfold indexed. rewrite <- Ha, <- Hs', <- He'. split; assumption.
Qed.

Lemma run_ast calls txt doc :
  ast (run calls (new_JSONSourceCode txt doc)) = doc.
Proof.
  pose proof (run_document calls (new_JSONSourceCode txt doc)) as (Ha & _).
  rewrite <- Ha. reflexivity.
Qed.


(** Where the maps locate a token of the array: at its own index,
    unless a later token has the same start (or end) offset. *)
Lemma token_located (txt : jsstring) (doc : DocumentNode) (calls : list Call)
  (tokens : list Token) (i : nat) (t : Token) :
  doc_tokens doc = Some tokens -> tokens !! i = Some t ->
  ((forall j t', (i < j)%nat -> tokens !! j = Some t' ->
                 fst (tok_range t') <> fst (tok_range t)) ->
   tokenStarts (run calls (new_JSONSourceCode txt doc)) !! fst (tok_range t) = Some i)
  /\ ((forall j t', (i < j)%nat -> tokens !! j = Some t' ->
                    snd (tok_range t') <> snd (tok_range t)) ->
      tokenEnds (run calls (new_JSONSourceCode txt doc)) !! snd (tok_range t) = Some i).
Proof.
  intros Htok Hi.
  destruct (run_indexed calls txt doc) as [Hs He].
  rewrite run_ast, Htok in Hs, He. simpl in Hs, He. rewrite Hs, He.
  split; intros Hlater.
  - apply (index_by_lookup start_of). split; [exists t; auto | exact Hlater].
  - apply (index_by_lookup end_of). split; [exists t; auto | exact Hlater].
Qed.

(** Nothing comes before the first token of the array, nothing after the
    last one. *)
Corollary getTokenBefore_first_token (txt : jsstring) (doc : DocumentNode)
  (calls : list Call) (tokens : list Token) (t : Token) (includeComments : bool) :
  doc_tokens doc = Some tokens -> tokens !! 0%nat = Some t ->
  (forall j t', (0 < j)%nat -> tokens !! j = Some t' ->
                fst (tok_range t') <> fst (tok_range t)) ->
  getTokenBefore (run calls (new_JSONSourceCode txt doc)) (AToken t) includeComments
  = Returned Null.
Proof.
  intros Htok Ht Hlater. unfold getTokenBefore. cbn [range_of].
  rewrite (proj1 (token_located txt doc calls tokens 0 t Htok Ht) Hlater). reflexivity.
Qed.

Corollary getTokenAfter_last_token (txt : jsstring) (doc : DocumentNode)
  (calls : list Call) (tokens : list Token) (i : nat) (t : Token) (includeComments : bool) :
  doc_tokens doc = Some tokens -> tokens !! i = Some t -> S i = length tokens ->
  getTokenAfter (run calls (new_JSONSourceCode txt doc)) (AToken t) includeComments
  = Returned Null.
Proof.
  intros Htok Ht Hlast. unfold getTokenAfter. cbn [range_of].
  rewrite (proj2 (token_located txt doc calls tokens i t Htok Ht)).
  - rewrite run_ast, Htok, Hlast, Nat.leb_refl. reflexivity.
  - intros j t' Hlt Hj. apply lookup_lt_Some in Hj. lia.
Qed.



End Histories.

(** ** Traversal (traverse) and parent lookup (getParent) *)

(** Induction on trees: a property of a node follows from the property
    of all its children. *)
Lemma Node_children_ind (P : Node -> Prop) :
  (forall n, Forall P (node_children n) -> P n) -> forall n, P n.
Proof.
  intros H. fix IH 1. intros n. apply H.
  destruct n as [i ty rg cs]. simpl.
  induction cs as [|c cs IHcs]; constructor; [apply IH | exact IHcs].
Qed.

Lemma visitNode_eq parent n :
  visitNode parent n =
  mkIteratorStep n parent (js "enter")
  :: (node_children n ≫= visitNode (Some n))
  ++ [mkIteratorStep n parent (js "exit")].
Proof.
  destruct n as [i ty rg cs]. cbn [visitNode node_children]. repeat f_equal.
Qed.

Lemma nodes_of_eq n : nodes_of n = n :: (node_children n ≫= nodes_of).
Proof.
  destruct n as [i ty rg cs]. cbn [nodes_of node_children]. repeat f_equal.
Qed.

Lemma nodes_post_eq n : nodes_post n = (node_children n ≫= nodes_post) ++ [n].
Proof.
  destruct n as [i ty rg cs]. cbn [nodes_post node_children]. repeat f_equal.
Qed.

Lemma walk_eq parent n :
  walk parent n =
  enter_step parent n :: (node_children n ≫= walk (Some n)) ++ [exit_step parent n].
Proof.
  unfold walk. rewrite visitNode_eq. rewrite fmap_cons, fmap_app. f_equal. f_equal.
  generalize (node_children n). intros cs.
  induction cs as [|c cs IH]; [reflexivity|].
  cbn [mbind list_bind]. rewrite fmap_app. rewrite <- IH. reflexivity.
Qed.

Lemma fold_left_traverse_body its : forall ps ss,
  fold_left traverse_body its (ps, ss)
  = (fold_left record_parent its ps, ss ++ (step_of <$> its)).
Proof.
  induction its as [|it its IH]; intros ps ss; simpl.
  - rewrite app_nil_r. reflexivity.
  - unfold traverse_body at 2. simpl. rewrite IH. f_equal.
    rewrite <- app_assoc. reflexivity.
Qed.

(** What the computing call of [traverse] returns and leaves behind. *)
Lemma traverse_first this :
  steps this = None ->
  traverse this =
  ( StepsArray (walk None (doc_node (ast this))),
    {| text := text this;
       ast := ast this;
       steps := Some (walk None (doc_node (ast this)));
       parents := fold_left record_parent (iterator (doc_node (ast this))) (parents this);
       inlineConfigComments := inlineConfigComments this;
       comments := comments this;
       tokenStarts := tokenStarts this;
       tokenEnds := tokenEnds this |} ).
Proof.
  intros Hnone. unfold traverse. rewrite Hnone, fold_left_traverse_body. reflexivity.
Qed.

Lemma traverse_cached this cached :
  steps this = Some cached ->
  traverse this = (StepsValues (mkArrayIterator cached 0), this).
Proof. intros Hc. unfold traverse. rewrite Hc. reflexivity. Qed.

(** An iterator just made yields the whole array. *)
Lemma iterate_fresh array :
  iterate (StepsValues (mkArrayIterator array 0)) = array.
Proof. apply drop_0. Qed.

Lemma next_iterate it :
  iterate (StepsValues (snd (next it))) = drop 1 (iterate (StepsValues it)).
Proof.
  unfold next, iterate. destruct (iterated it !! nextIndex it) as [x|] eqn:Hlk; simpl.
  - rewrite drop_drop. f_equal. lia.
  - rewrite drop_drop. apply lookup_ge_None in Hlk.
    rewrite !drop_ge; [reflexivity | lia | lia].
Qed.

Lemma advance_iterate k it :
  iterate (StepsValues (advance k it)) = drop k (iterate (StepsValues it)).
Proof.
  induction k as [|k IH].
  - rewrite drop_0. reflexivity.
  - change (advance (S k) it) with (snd (next (advance k it))).
    rewrite next_iterate, IH, drop_drop. f_equal. lia.
Qed.

(** With enough fuel the loop sees the rest of the array and leaves
    the cursor at its end. *)
Lemma drain_enough fuel : forall it,
  (length (iterated it) - nextIndex it < fuel)%nat ->
  drain fuel it
  = (drop (nextIndex it) (iterated it),
     mkArrayIterator (iterated it) (Nat.max (nextIndex it) (length (iterated it)))).
Proof.
  induction fuel as [|fuel IH]; intros [array i] Hfuel; [lia|].
  simpl in *. unfold next. simpl.
  destruct (array !! i) as [s|] eqn:Hlk.
  - pose proof (lookup_lt_Some _ _ _ Hlk) as Hlt.
    rewrite (IH (mkArrayIterator array (S i))) by (simpl; lia). simpl.
    rewrite (drop_S _ _ _ Hlk). do 2 f_equal. lia.
  - apply lookup_ge_None in Hlk. rewrite drop_ge by lia. do 2 f_equal. lia.
Qed.

Lemma for_of_array array : for_of (StepsArray array) = (array, StepsArray array).
Proof.
  unfold for_of. rewrite drain_enough by (simpl; lia). simpl. rewrite drop_0. reflexivity.
Qed.

Lemma for_of_values it :
  for_of (StepsValues it)
  = (drop (nextIndex it) (iterated it),
     StepsValues (mkArrayIterator (iterated it)
                    (Nat.max (nextIndex it) (length (iterated it))))).
Proof. unfold for_of. rewrite drain_enough by lia. reflexivity. Qed.

(** A loop sees what [iterate] gives. *)
Lemma for_of_iterate r : fst (for_of r) = iterate r.
Proof. destruct r; [rewrite for_of_array | rewrite for_of_values]; reflexivity. Qed.

(** A second loop over an array iterator sees nothing. *)
Lemma for_of_values_again it : fst (for_of (snd (for_of (StepsValues it)))) = [].
Proof.
  rewrite for_of_values. cbn [snd]. rewrite for_of_values. cbn [fst iterated nextIndex].
  apply drop_ge. lia.
Qed.

Section Traversal.

Variable getText : jsstring -> Token -> jsstring.
Variable parseDirective : jsstring -> option DirectiveComment.
Variable parseJSONLikeConfig : jsstring -> ParseResult.

Local Abbreviation exec := (exec getText parseDirective parseJSONLikeConfig).
Local Abbreviation run := (run getText parseDirective parseJSONLikeConfig).
Local Abbreviation getInlineConfigNodes := (getInlineConfigNodes getText).

Lemma getInlineConfigNodes_cache this :
  steps (snd (getInlineConfigNodes this)) = steps this
  /\ parents (snd (getInlineConfigNodes this)) = parents this.
Proof.
  unfold getInlineConfigNodes.
  destruct (inlineConfigComments this); simpl; [tauto|].
  destruct (filterM _ _); simpl; tauto.
Qed.

(** Only [traverse] assigns [#steps] and [#parents]. *)
Lemma exec_other_cache this c :
  is_traverse c = false ->
  steps (exec this c) = steps this /\ parents (exec this c) = parents this.
Proof.
  destruct c; simpl; intros Hc; try discriminate; try tauto.
  - apply getInlineConfigNodes_cache.
  - unfold getDisableDirectives.
    pose proof (getInlineConfigNodes_cache this) as H.
    destruct (getInlineConfigNodes this) as [[nodes|e] this']; exact H.
  - unfold applyInlineConfig.
    pose proof (getInlineConfigNodes_cache this) as H.
    destruct (getInlineConfigNodes this) as [[nodes|e] this']; exact H.
Qed.

(** Once set, the cache stays as it is. *)
Lemma exec_cache_kept this c cached :
  steps this = Some cached ->
  steps (exec this c) = Some cached /\ parents (exec this c) = parents this.
Proof.
  intros Hc. destruct (is_traverse c) eqn:Ht.
  - destruct c; try discriminate. simpl.
    rewrite (traverse_cached this cached Hc). simpl. tauto.
  - destruct (exec_other_cache this c Ht) as [Hs Hp]. rewrite Hs, Hp. tauto.
Qed.

Lemma run_cache_kept calls : forall this cached,
  steps this = Some cached ->
  steps (run calls this) = Some cached /\ parents (run calls this) = parents this.
Proof.
  induction calls as [|c calls IH]; intros this cached Hc; simpl; [tauto|].
  destruct (exec_cache_kept this c cached Hc) as [Hs Hp].
  destruct (IH (exec this c) cached Hs) as [Hs' Hp']. rewrite Hs', Hp', Hp. tauto.
Qed.

Lemma exec_traversal_state this c b :
  traversal_state b this -> traversal_state (b || is_traverse c) (exec this c).
Proof.
  intros Hst. destruct (exec_document getText parseDirective parseJSONLikeConfig this c)
    as (Hast & _).
  destruct b; simpl.
  - destruct Hst as [Hs Hp]. unfold traversal_state.
    destruct (exec_cache_kept this c _ Hs) as [Hs' Hp'].
    rewrite <- Hast, Hs', Hp'. tauto.
  - destruct Hst as [Hs Hp]. destruct (is_traverse c) eqn:Ht.
    + destruct c; try discriminate. simpl.
      rewrite (traverse_first this Hs). simpl. rewrite Hp. tauto.
    + destruct (exec_other_cache this c Ht) as [Hs' Hp']. simpl.
      rewrite Hs', Hp'. tauto.
Qed.

Lemma run_traversal_state calls : forall this b,
  traversal_state b this ->
  traversal_state (b || existsb is_traverse calls) (run calls this).
Proof.
  induction calls as [|c calls IH]; intros this b Hst; simpl.
  - rewrite orb_false_r. exact Hst.
  - rewrite orb_assoc. apply IH. apply exec_traversal_state. exact Hst.
Qed.

Lemma new_traversal_state txt doc :
  traversal_state false (new_JSONSourceCode txt doc).
Proof. split; reflexivity. Qed.

(** On an instance in use, [traverse] yields the walk of the document. *)
Lemma traverse_in_use txt doc calls :
  iterate (fst (traverse (run calls (new_JSONSourceCode txt doc)))) = walk None (doc_node doc).
Proof.
  pose proof (run_traversal_state calls _ false (new_traversal_state txt doc)) as Hst.
  pose proof (run_ast getText parseDirective parseJSONLikeConfig calls txt doc) as Hast.
  simpl in Hst. destruct (existsb is_traverse calls); simpl in Hst; destruct Hst as [Hs Hp].
  - rewrite (traverse_cached _ _ Hs). simpl. rewrite drop_0, Hast. reflexivity.
  - rewrite (traverse_first _ Hs). simpl. rewrite Hast. reflexivity.
Qed.

(** C1.  Take any call of [traverse] (in particular the first one on an
    instance) and any later call, whatever other calls lie between.  The
    later call returns a new array iterator positioned at the start of
    the cached array, which holds exactly the steps the earlier call
    yielded; so a loop over it sees the same steps, hence the same
    [target] and [phase] in the same order.  Advancing that iterator
    only moves its own cursor along the cached steps.  The iterator
    cannot be restarted: a second loop over the same object sees no
    step at all; it is a further call of [traverse] that starts at the
    beginning again.  Only the call that computes the steps returns
    something that can be iterated again, the array itself. *)
Theorem traverse_is_cached (this : JSONSourceCode) (later : list Call) :
  let first := traverse this in
  let again := traverse (run later (snd first)) in
  fst again = StepsValues (mkArrayIterator (iterate (fst first)) 0)
  /\ iterate (fst again) = iterate (fst first)
  /\ target_phase <$> iterate (fst again) = target_phase <$> iterate (fst first)
  /\ steps (snd again) = Some (iterate (fst first))
  /\ (forall k,
        iterate (StepsValues (advance k (mkArrayIterator (iterate (fst first)) 0)))
        = drop k (iterate (fst first)))
  /\ fst (traverse (snd again)) = StepsValues (mkArrayIterator (iterate (fst first)) 0)
  /\ fst (for_of (fst again)) = iterate (fst first)
  /\ fst (for_of (snd (for_of (fst again)))) = []
  /\ (steps this = None ->
      fst (for_of (snd (for_of (fst first)))) = iterate (fst first)).
Proof.
  intros first again.
  assert (Hfirst : steps (snd first) = Some (iterate (fst first))).
  { subst first. destruct (steps this) as [cached|] eqn:Hs.
    - rewrite (traverse_cached this cached Hs). simpl. rewrite drop_0. exact Hs.
    - rewrite (traverse_first this Hs). reflexivity. }
  destruct (run_cache_kept later _ _ Hfirst) as [Hlater _].
  assert (Hagain : again = (StepsValues (mkArrayIterator (iterate (fst first)) 0),
                            run later (snd first))).
  { subst again. apply traverse_cached. exact Hlater. }
  rewrite Hagain. cbn [fst snd]. rewrite iterate_fresh.
  split; [reflexivity|]. split; [reflexivity|]. split; [reflexivity|].
  split; [exact Hlater|]. split; [|split; [|split; [|split]]].
  - intros k. rewrite advance_iterate, iterate_fresh. reflexivity.
  - rewrite (traverse_cached _ _ Hlater). reflexivity.
  - rewrite for_of_iterate. apply iterate_fresh.
  - apply for_of_values_again.
  - intros Hnone. subst first. rewrite (traverse_first this Hnone). cbn [fst].
    rewrite for_of_array. cbn [snd]. rewrite for_of_array. reflexivity.
Qed.

End Traversal.

(** *** Lists whose elements have distinct keys *)

Section DistinctKeys.

Context {A K : Type} `{EqDecision K} (f : A -> K).

Lemma filter_none (P : A -> Prop) `{forall x, Decision (P x)} (l : list A) :
  (forall x, x ∈ l -> ~ P x) -> filter P l = [].
Proof.
  induction l as [|x l IH]; intros Hno; [reflexivity|].
  rewrite filter_cons_False by (apply Hno; left).
  apply IH. intros y Hy. apply Hno. right. exact Hy.
Qed.

Lemma filter_agree (P Q : A -> Prop) `{forall x, Decision (P x)} `{forall x, Decision (Q x)}
  (l : list A) :
  (forall x, x ∈ l -> (P x <-> Q x)) -> filter P l = filter Q l.
Proof.
  induction l as [|x l IH]; intros Hpq; [reflexivity|].
  assert (Hl : filter P l = filter Q l).
  { apply IH. intros y Hy. apply Hpq. right. exact Hy. }
  destruct (decide (P x)) as [Hp | Hp].
  - rewrite filter_cons_True by exact Hp.
    rewrite filter_cons_True by (apply Hpq; [left | exact Hp]). f_equal. exact Hl.
  - rewrite filter_cons_False by exact Hp.
    rewrite filter_cons_False by (intros Hq; apply Hp, Hpq; [left | exact Hq]). exact Hl.
Qed.

(** Among elements with distinct keys, selecting by the key of [y] (or
    by keys that do not occur) selects [y] alone. *)
Lemma filter_by_key (l : list A) (y : A) (others : list K) :
  NoDup (f <$> l) -> y ∈ l -> (forall x, x ∈ l -> f x ∉ others) ->
  filter (fun x => f x ∈ f y :: others) l = [y].
Proof.
  induction l as [|x l IH]; intros Hnd Hy Hothers.
  - apply elem_of_nil in Hy. contradiction.
  - rewrite fmap_cons in Hnd. apply NoDup_cons in Hnd. destruct Hnd as [Hx Hnd].
    apply elem_of_cons in Hy. destruct Hy as [-> | Hy].
    + rewrite filter_cons_True by left. f_equal.
      apply filter_none. intros z Hz Hin. apply elem_of_cons in Hin.
      destruct Hin as [Heq | Hin].
      * apply Hx. rewrite <- Heq. apply list_elem_of_fmap_2. exact Hz.
      * apply (Hothers z); [right; exact Hz | exact Hin].
    + rewrite filter_cons_False.
      * apply IH; [exact Hnd | exact Hy|]. intros z Hz. apply Hothers. right. exact Hz.
      * intros Hin. apply elem_of_cons in Hin. destruct Hin as [Heq | Hin].
        -- apply Hx. rewrite Heq. apply list_elem_of_fmap_2. exact Hy.
        -- apply (Hothers x); [left | exact Hin].
Qed.

(** In a concatenation of blocks [g c], all keys distinct, selecting by
    the keys of one chosen element [h c] per block selects the chosen
    elements, block after block. *)
Lemma filter_chosen {B : Type} (g : B -> list A) (h : B -> A) (cs : list B) :
  (forall c, h c ∈ g c) ->
  NoDup (f <$> (cs ≫= g)) ->
  filter (fun x => f x ∈ (f <$> (h <$> cs))) (cs ≫= g) = h <$> cs.
Proof.
  intros Hh. induction cs as [|c cs IH]; intros Hnd; [reflexivity|].
  rewrite bind_cons in *. rewrite fmap_app in Hnd.
  apply NoDup_app in Hnd. destruct Hnd as (Hc & Hdisj & Hrest).
  assert (Hsub : forall k, k ∈ (f <$> (h <$> cs)) -> k ∈ (f <$> (cs ≫= g))).
  { intros k Hk. apply list_elem_of_fmap in Hk. destruct Hk as (a & -> & Ha).
    apply list_elem_of_fmap in Ha. destruct Ha as (c' & -> & Hc').
    apply list_elem_of_fmap_2. apply list_elem_of_bind. exists c'. split; [apply Hh | exact Hc']. }
  rewrite filter_app, !fmap_cons.
  rewrite (filter_by_key (g c) (h c) (f <$> (h <$> cs))); [|exact Hc | apply Hh |].
  - simpl. f_equal.
    etransitivity; [|apply IH; exact Hrest].
    apply filter_agree. intros x Hx. rewrite elem_of_cons.
    split; [|intros Hin; right; exact Hin].
    intros [Heq | Hin]; [|exact Hin]. exfalso.
    apply (Hdisj (f (h c))); [apply list_elem_of_fmap_2, Hh|].
    rewrite <- Heq. apply list_elem_of_fmap_2. exact Hx.
  - intros x Hx Hin.
    apply (Hdisj (f x)); [apply list_elem_of_fmap_2; exact Hx | apply Hsub; exact Hin].
Qed.

(** Two positions holding selected elements of the same key coincide. *)
Lemma selected_position (P : A -> Prop) `{forall x, Decision (P x)} (l : list A) i j a b :
  NoDup (f <$> filter P l) ->
  l !! i = Some a -> l !! j = Some b -> P a -> P b -> f a = f b -> i = j.
Proof.
  intros Hnd Hi Hj Ha Hb Hab.
  assert (Hlt : forall i j a b, l !! i = Some a -> l !! j = Some b -> P a -> P b ->
                 f a = f b -> (i < j)%nat -> False).
  { clear i j a b Hi Hj Ha Hb Hab. intros i j a b Hi Hj Ha Hb Hab Hlt.
    rewrite <- (take_drop_middle l i a Hi) in Hnd.
    rewrite filter_app, filter_cons_True, fmap_app, fmap_cons in Hnd by exact Ha.
    apply NoDup_app in Hnd. destruct Hnd as (_ & _ & Hnd).
    apply NoDup_cons in Hnd. destruct Hnd as [Hnotin _]. apply Hnotin.
    rewrite Hab. apply list_elem_of_fmap_2. apply list_elem_of_filter. split; [exact Hb|].
    apply (list_elem_of_lookup_2 _ (j - S i)%nat). rewrite lookup_drop.
    replace (S i + (j - S i))%nat with j by lia. exact Hj. }
  destruct (Nat.lt_trichotomy i j) as [Hc | [Hc | Hc]]; [|exact Hc|].
  - exfalso. exact (Hlt i j a b Hi Hj Ha Hb Hab Hc).
  - exfalso. exact (Hlt j i b a Hj Hi Hb Ha (eq_sym Hab) Hc).
Qed.

End DistinctKeys.

(** *** The shape of the walk *)

Lemma step_of_phase it : phase (step_of it) = 1 \/ phase (step_of it) = 2.
Proof. unfold step_of. simpl. destruct (decide _); [left | right]; reflexivity. Qed.

Lemma walk_phase parent n s : s ∈ walk parent n -> phase s = 1 \/ phase s = 2.
Proof.
  unfold walk. intros Hs. apply list_elem_of_fmap in Hs.
  destruct Hs as (it & -> & _). apply step_of_phase.
Qed.

(** The steps of phase 1 visit the nodes parents first, those of phase
    2 children first. *)
Lemma walk_enters : forall n parent,
  target <$> filter (fun s => phase s = 1) (walk parent n) = nodes_of n.
Proof.
  induction n as [n IH] using Node_children_ind. intros parent.
  rewrite walk_eq, nodes_of_eq.
  rewrite filter_cons_True by reflexivity.
  rewrite filter_app, (filter_cons_False _ (exit_step parent n)) by (simpl; lia).
  rewrite filter_nil, app_nil_r, fmap_cons. f_equal.
  induction IH as [|c cs Hc _ IHcs]; [reflexivity|].
  rewrite !bind_cons, filter_app, fmap_app, Hc, IHcs. reflexivity.
Qed.

Lemma walk_exits : forall n parent,
  target <$> filter (fun s => phase s = 2) (walk parent n) = nodes_post n.
Proof.
  induction n as [n IH] using Node_children_ind. intros parent.
  rewrite walk_eq, nodes_post_eq.
  rewrite filter_cons_False by (simpl; lia).
  rewrite filter_app, (filter_cons_True _ (exit_step parent n)) by reflexivity.
  rewrite filter_nil, fmap_app. f_equal.
  induction IH as [|c cs Hc _ IHcs]; [reflexivity|].
  rewrite !bind_cons, filter_app, fmap_app, Hc, IHcs. reflexivity.
Qed.

Lemma nodes_post_Permutation : forall n, nodes_post n ≡ₚ nodes_of n.
Proof.
  induction n as [n IH] using Node_children_ind.
  rewrite nodes_post_eq, nodes_of_eq.
  rewrite <- Permutation_cons_append. constructor.
  induction IH as [|c cs Hc _ IHcs]; [reflexivity|].
  rewrite !bind_cons, Hc, IHcs. reflexivity.
Qed.

(** With distinct nodes, the steps of each phase have distinct targets. *)
Lemma walk_distinct root ph :
  distinct_nodes root -> ph = 1 \/ ph = 2 ->
  NoDup ((fun s => node_id (target s)) <$> filter (fun s => phase s = ph) (walk None root)).
Proof.
  intros Hd Hph. rewrite (list_fmap_compose target node_id).
  destruct Hph as [-> | ->].
  - rewrite walk_enters. exact Hd.
  - rewrite walk_exits. unfold distinct_nodes in Hd.
    rewrite nodes_post_Permutation. exact Hd.
Qed.

(** The walk of the tree contains the walk of each of its nodes. *)
Lemma walk_subtree n : forall root parent,
  n ∈ nodes_of root ->
  exists before after p, walk parent root = before ++ walk p n ++ after.
Proof.
  induction root as [root IH] using Node_children_ind. intros parent Hn.
  rewrite nodes_of_eq in Hn. apply elem_of_cons in Hn. destruct Hn as [-> | Hn].
  - exists [], [], parent. rewrite app_nil_r. reflexivity.
  - apply list_elem_of_bind in Hn. destruct Hn as (c & Hn & Hc).
    rewrite Forall_forall in IH.
    destruct (IH c Hc (Some root) Hn) as (before & after & p & Hw).
    destruct (list_elem_of_split _ _ Hc) as (cs1 & cs2 & Hcs).
    exists (enter_step parent root :: (cs1 ≫= walk (Some root)) ++ before),
           (after ++ (cs2 ≫= walk (Some root)) ++ [exit_step parent root]), p.
    rewrite walk_eq, Hcs, bind_app, bind_cons, Hw.
    simpl. rewrite <- !app_assoc. reflexivity.
Qed.

(** The children of a node of the tree are nodes of the tree. *)
Lemma nodes_of_child n c : c ∈ node_children n -> c ∈ nodes_of n.
Proof.
  intros Hc. rewrite nodes_of_eq. right. apply list_elem_of_bind.
  exists c. split; [|exact Hc]. rewrite nodes_of_eq. left.
Qed.

Lemma nodes_post_self n : n ∈ nodes_post n.
Proof. rewrite nodes_post_eq. apply elem_of_app. right. left. Qed.

Lemma nodes_of_self n : n ∈ nodes_of n.
Proof. rewrite nodes_of_eq. left. Qed.

Lemma fmap_filter_comm {A B : Type} (g : A -> B) (Q : B -> Prop)
  `{forall y, Decision (Q y)} (l : list A) :
  g <$> filter (fun x => Q (g x)) l = filter Q (g <$> l).
Proof.
  induction l as [|x l IH]; [reflexivity|].
  rewrite fmap_cons. destruct (decide (Q (g x))) as [Hq | Hq].
  - rewrite !filter_cons_True by exact Hq. rewrite fmap_cons, IH. reflexivity.
  - rewrite !filter_cons_False by exact Hq. exact IH.
Qed.

(** Selecting the children of [n] out of a list of distinct nodes in
    which the blocks of the children occur side by side. *)
Lemma filter_children (G : Node -> list Node) (n : Node) (X Y : list Node) :
  (forall c, c ∈ G c) ->
  NoDup (node_id <$> (X ++ (node_children n ≫= G) ++ Y)) ->
  filter (fun x => node_id x ∈ (node_id <$> node_children n))
         (X ++ (node_children n ≫= G) ++ Y)
  = node_children n.
Proof.
  intros HG Hnd. rewrite !fmap_app in Hnd.
  apply NoDup_app in Hnd. destruct Hnd as (_ & HX & Hnd).
  apply NoDup_app in Hnd. destruct Hnd as (HM & HY & _).
  assert (Hsub : forall k, k ∈ (node_id <$> node_children n) ->
                           k ∈ (node_id <$> (node_children n ≫= G))).
  { intros k Hk. apply list_elem_of_fmap in Hk. destruct Hk as (c & -> & Hc).
    apply list_elem_of_fmap_2, list_elem_of_bind. exists c. split; [apply HG | exact Hc]. }
  rewrite !filter_app.
  rewrite (filter_none _ X), (filter_none _ Y).
  - rewrite app_nil_r. simpl.
    pose proof (filter_chosen node_id G (fun c => c) (node_children n) HG HM) as Hsel.
    rewrite list_fmap_id in Hsel. exact Hsel.
  - intros y Hy Hin. apply (HY (node_id y)); [apply Hsub; exact Hin|].
    apply list_elem_of_fmap_2. exact Hy.
  - intros x Hx Hin. apply (HX (node_id x)).
    + apply list_elem_of_fmap_2. exact Hx.
    + apply elem_of_app. left. apply Hsub. exact Hin.
Qed.

(** With distinct nodes, a step is the only one of its phase for its
    target. *)
Lemma only_step root s :
  distinct_nodes root -> s ∈ walk None root ->
  filter (step_for (target s) (phase s)) (walk None root) = [s].
Proof.
  intros Hd Hs.
  pose proof (walk_distinct root (phase s) Hd (walk_phase _ _ _ Hs)) as Hnd.
  pose proof (filter_by_key (fun x => node_id (target x))
                (filter (fun x => phase x = phase s) (walk None root)) s [] Hnd) as Hsel.
  rewrite list_filter_filter in Hsel. rewrite <- Hsel.
  - apply list_filter_iff. intros x. unfold step_for. rewrite elem_of_cons, elem_of_nil. tauto.
  - apply list_elem_of_filter. split; [reflexivity | exact Hs].
  - intros x _. apply not_elem_of_nil.
Qed.

(** With distinct nodes, a step of a given phase for a given node object
    sits at one position only. *)
Lemma step_position root i j a b :
  distinct_nodes root ->
  walk None root !! i = Some a -> walk None root !! j = Some b ->
  node_id (target a) = node_id (target b) -> phase a = phase b -> i = j.
Proof.
  intros Hd Hi Hj Hid Hph.
  assert (Ha : a ∈ walk None root) by (eapply list_elem_of_lookup_2; exact Hi).
  pose proof (walk_distinct root (phase a) Hd (walk_phase _ _ _ Ha)) as Hnd.
  exact (selected_position (fun s => node_id (target s)) (fun s => phase s = phase a)
           _ i j a b Hnd Hi Hj eq_refl (eq_sym Hph) Hid).
Qed.

Section TraversalOrder.

Variable getText : jsstring -> Token -> jsstring.
Variable parseDirective : jsstring -> option DirectiveComment.
Variable parseJSONLikeConfig : jsstring -> ParseResult.

Local Abbreviation run := (run getText parseDirective parseJSONLikeConfig).

(** C2.  Let the nodes of the tree be distinct objects and [n] one of
    them, and take the steps [traverse] yields on an instance in use.
    They consist of the enter step of [n], then the walks of the
    children of [n] one after the other in the order of the child
    sequence, then the exit step of [n], with other steps before and
    after.  There is exactly one step of phase 1 and one of phase 2 for
    [n]; wherever a step for a child of [n] stands, it stands after the
    enter step and before the exit step of [n]; and the steps of either
    phase for the children of [n] come in the order of the child
    sequence. *)
Theorem traverse_order (txt : jsstring) (doc : DocumentNode) (calls : list Call) (n : Node) :
  distinct_nodes (doc_node doc) ->
  n ∈ nodes_of (doc_node doc) ->
  let S := iterate (fst (traverse (run calls (new_JSONSourceCode txt doc)))) in
  (exists parent before after,
      S = before ++ [enter_step parent n]
                 ++ (node_children n ≫= walk (Some n))
                 ++ [exit_step parent n] ++ after
      /\ filter (step_for n 1) S = [enter_step parent n]
      /\ filter (step_for n 2) S = [exit_step parent n])
  /\ (forall c i j k se sc sx,
        c ∈ node_children n ->
        S !! i = Some se -> step_for n 1 se ->
        S !! j = Some sc -> node_id (target sc) = node_id c ->
        S !! k = Some sx -> step_for n 2 sx ->
        (i < j < k)%nat)
  /\ (forall ph, ph = 1 \/ ph = 2 ->
        target <$> filter (child_step n ph) S = node_children n).
Proof.
  intros Hd Hn S. subst S. rewrite traverse_in_use.
  set (root := doc_node doc) in *.
  destruct (walk_subtree n root None Hn) as (before & after & parent & Hw0).
  pose proof Hw0 as Hw. rewrite (walk_eq parent n) in Hw.
  set (mid := node_children n ≫= walk (Some n)) in *.
  assert (HS : walk None root = before ++ [enter_step parent n] ++ mid
                                ++ [exit_step parent n] ++ after).
  { rewrite Hw. simpl. rewrite <- !app_assoc. reflexivity. }
  assert (HE : walk None root !! length before = Some (enter_step parent n)).
  { rewrite HS. apply list_lookup_middle. reflexivity. }
  assert (HX : walk None root !! (length before + 1 + length mid)%nat
               = Some (exit_step parent n)).
  { rewrite HS, !app_assoc. rewrite <- (app_assoc _ [exit_step parent n] after).
    apply list_lookup_middle. rewrite !length_app. simpl. lia. }
  assert (Hmid : forall x, x ∈ mid ->
            exists j, walk None root !! j = Some x
                      /\ (length before < j < length before + 1 + length mid)%nat).
  { intros x Hx. apply list_elem_of_lookup_1 in Hx. destruct Hx as [j' Hj'].
    exists (length before + 1 + j')%nat. split.
    - rewrite HS. rewrite lookup_app_r by lia.
      replace (length before + 1 + j' - length before)%nat with (S j') by lia.
      simpl. apply lookup_app_l_Some. exact Hj'.
    - apply lookup_lt_Some in Hj'. lia. }
  split; [|split].
  - exists parent, before, after. split; [exact HS|].
    split.
    + apply (only_step root (enter_step parent n) Hd).
      eapply list_elem_of_lookup_2. exact HE.
    + apply (only_step root (exit_step parent n) Hd).
      eapply list_elem_of_lookup_2. exact HX.
  - intros c i j k se sc sx Hc Hi [Hse1 Hse2] Hj Hsc Hk [Hsx1 Hsx2].
    assert (i = length before) as ->.
    { apply (step_position root i _ se (enter_step parent n) Hd Hi HE); simpl; congruence. }
    assert (k = (length before + 1 + length mid)%nat) as ->.
    { apply (step_position root k _ sx (exit_step parent n) Hd Hk HX); simpl; congruence. }
    assert (Hin : exists x, x ∈ mid /\ node_id (target x) = node_id c /\ phase x = phase sc).
    { assert (Hwc : forall x, x ∈ walk (Some n) c -> x ∈ mid).
      { intros x Hx. apply list_elem_of_bind. exists c. split; [exact Hx | exact Hc]. }
      destruct (walk_phase None root sc (list_elem_of_lookup_2 _ _ _ Hj)) as [Hph | Hph].
      - exists (enter_step (Some n) c). split; [|split; [reflexivity | simpl; congruence]].
        apply Hwc. rewrite walk_eq. left.
      - exists (exit_step (Some n) c). split; [|split; [reflexivity | simpl; congruence]].
        apply Hwc. rewrite walk_eq. right. apply elem_of_app. right. left. }
    destruct Hin as (x & Hx & Hidx & Hphx).
    destruct (Hmid x Hx) as (j0 & Hj0 & Hrange).
    assert (j = j0) as ->.
    { apply (step_position root j j0 sc x Hd Hj Hj0); congruence. }
    exact Hrange.
  - intros ph Hph.
    transitivity (filter (fun x => node_id x ∈ (node_id <$> node_children n))
                    (target <$> filter (fun s => phase s = ph) (walk None root))).
    { rewrite <- (fmap_filter_comm target
                    (fun x => node_id x ∈ (node_id <$> node_children n))).
      f_equal. rewrite list_filter_filter. apply list_filter_iff.
      intros s. unfold child_step. tauto. }
    pose proof (walk_distinct root ph Hd Hph) as Hnd.
    rewrite (list_fmap_compose target node_id) in Hnd.
    assert (Hblocks : exists G X Y, (forall c, c ∈ G c) /\
              target <$> filter (fun s => phase s = ph) (walk None root)
              = X ++ (node_children n ≫= G) ++ Y).
    { rewrite Hw0, !filter_app, !fmap_app. destruct Hph as [-> | ->].
      - exists nodes_of,
          ((target <$> filter (fun s => phase s = 1) before) ++ [n]),
          (target <$> filter (fun s => phase s = 1) after).
        split; [apply nodes_of_self|].
        rewrite walk_enters, nodes_of_eq, <- !app_assoc. reflexivity.
      - exists nodes_post,
          (target <$> filter (fun s => phase s = 2) before),
          ([n] ++ (target <$> filter (fun s => phase s = 2) after)).
        split; [apply nodes_post_self|].
        rewrite walk_exits, nodes_post_eq, <- !app_assoc. reflexivity. }
    destruct Hblocks as (G & X & Y & HG & Heq).
    rewrite Heq in Hnd |- *.
    apply (filter_children G); [exact HG | exact Hnd].
Qed.

End TraversalOrder.

(** *** Parent lookup *)

Lemma record_parent_kept its : forall m k,
  is_Some (m !! k) -> is_Some (fold_left record_parent its m !! k).
Proof.
  induction its as [|it its IH]; intros m k Hk; simpl; [exact Hk|].
  apply IH. unfold record_parent. destruct (it_parent it) as [p|]; [|exact Hk].
  destruct (decide (node_id (it_node it) = k)) as [-> | Hne].
  - rewrite lookup_insert_eq. eauto.
  - rewrite lookup_insert_ne by exact Hne. exact Hk.
Qed.

(** A node yielded with a parent has an entry afterwards. *)
Lemma record_parent_defined its : forall m it,
  it ∈ its -> is_Some (it_parent it) ->
  is_Some (fold_left record_parent its m !! node_id (it_node it)).
Proof.
  induction its as [|it0 its IH]; intros m it Hin Hp.
  - apply elem_of_nil in Hin. contradiction.
  - simpl. apply elem_of_cons in Hin. destruct Hin as [<- | Hin].
    + apply record_parent_kept. unfold record_parent.
      destruct Hp as [p Hp]. rewrite Hp, lookup_insert_eq. eauto.
    + apply IH; assumption.
Qed.

(** An entry comes from an item yielded with that parent. *)
Lemma record_parent_origin its : forall m k p,
  fold_left record_parent its m !! k = Some p ->
  (exists it, it ∈ its /\ node_id (it_node it) = k /\ it_parent it = Some p)
  \/ m !! k = Some p.
Proof.
  induction its as [|it0 its IH]; intros m k p Hlk; simpl in Hlk; [right; exact Hlk|].
  destruct (IH _ _ _ Hlk) as [(it & Hin & Hid & Hp) | Hm].
  - left. exists it. split; [right; exact Hin | tauto].
  - unfold record_parent in Hm. destruct (it_parent it0) as [p0|] eqn:Hp0; [|right; exact Hm].
    destruct (decide (node_id (it_node it0) = k)) as [Heq | Hne].
    + rewrite Heq, lookup_insert_eq in Hm. injection Hm as ->.
      left. exists it0. split; [left | tauto].
    + rewrite lookup_insert_ne in Hm by exact Hne. right. exact Hm.
Qed.

Lemma nodes_of_trans a b : forall root,
  a ∈ nodes_of b -> b ∈ nodes_of root -> a ∈ nodes_of root.
Proof.
  induction root as [root IH] using Node_children_ind. intros Ha Hb.
  rewrite nodes_of_eq in Hb. apply elem_of_cons in Hb. destruct Hb as [-> | Hb]; [exact Ha|].
  apply list_elem_of_bind in Hb. destruct Hb as (c & Hb & Hc).
  rewrite Forall_forall in IH. rewrite nodes_of_eq. right.
  apply list_elem_of_bind. exists c. split; [apply IH; assumption | exact Hc].
Qed.

(** What the iterator yields: the root as it was reached, and children
    of nodes of the tree with the node they are children of. *)
Lemma visitNode_items : forall root parent it,
  it ∈ visitNode parent root ->
  (it_node it = root /\ it_parent it = parent)
  \/ (exists p, it_parent it = Some p /\ p ∈ nodes_of root /\ it_node it ∈ node_children p).
Proof.
  induction root as [root IH] using Node_children_ind. intros parent it Hin.
  rewrite visitNode_eq in Hin. apply elem_of_cons in Hin.
  destruct Hin as [-> | Hin]; [left; split; reflexivity|].
  apply elem_of_app in Hin. destruct Hin as [Hin | Hin].
  - right. apply list_elem_of_bind in Hin. destruct Hin as (c & Hin & Hc).
    rewrite Forall_forall in IH.
    destruct (IH c Hc (Some root) it Hin) as [[Hnode Hpar] | (p & Hpar & Hp & Hch)].
    + exists root. split; [exact Hpar|]. split; [apply nodes_of_self | rewrite Hnode; exact Hc].
    + exists p. split; [exact Hpar|]. split; [|exact Hch].
      apply (nodes_of_trans p c root Hp). apply nodes_of_child. exact Hc.
  - apply list_elem_of_singleton in Hin. subst it. left; split; reflexivity.
Qed.

(** Every node below the root is yielded with a parent. *)
Lemma visitNode_yields n : forall root parent,
  n ∈ nodes_of root ->
  n = root \/ exists it, it ∈ visitNode parent root /\ it_node it = n /\ is_Some (it_parent it).
Proof.
  induction root as [root IH] using Node_children_ind. intros parent Hn.
  rewrite nodes_of_eq in Hn. apply elem_of_cons in Hn. destruct Hn as [-> | Hn]; [left; reflexivity|].
  right. apply list_elem_of_bind in Hn. destruct Hn as (c & Hn & Hc).
  rewrite Forall_forall in IH.
  assert (Hsub : forall it, it ∈ visitNode (Some root) c -> it ∈ visitNode parent root).
  { intros it Hit. rewrite (visitNode_eq parent root). right. apply elem_of_app. left.
    apply list_elem_of_bind. exists c. split; [exact Hit | exact Hc]. }
  destruct (IH c Hc (Some root) Hn) as [-> | (it & Hit & Hnode & Hpar)].
  - exists (mkIteratorStep c (Some root) (js "enter")). split; [|split; [reflexivity | eauto]].
    apply Hsub. rewrite visitNode_eq. left.
  - exists it. split; [apply Hsub; exact Hit | tauto].
Qed.

(** Distinct nodes are told apart by their identity. *)
Lemma distinct_nodes_inj root a b :
  distinct_nodes root -> a ∈ nodes_of root -> b ∈ nodes_of root ->
  node_id a = node_id b -> a = b.
Proof.
  intros Hd Ha Hb Hid.
  apply list_elem_of_lookup_1 in Ha. destruct Ha as [i Hi].
  apply list_elem_of_lookup_1 in Hb. destruct Hb as [j Hj].
  assert (Hi' : (node_id <$> nodes_of root) !! i = Some (node_id a))
    by (rewrite list_lookup_fmap, Hi; reflexivity).
  assert (Hj' : (node_id <$> nodes_of root) !! j = Some (node_id a))
    by (rewrite list_lookup_fmap, Hj, Hid; reflexivity).
  pose proof (NoDup_lookup _ i j _ Hd Hi' Hj') as ->. congruence.
Qed.

Section ParentLookup.

Variable getText : jsstring -> Token -> jsstring.
Variable parseDirective : jsstring -> option DirectiveComment.
Variable parseJSONLikeConfig : jsstring -> ParseResult.

Local Abbreviation exec := (exec getText parseDirective parseJSONLikeConfig).
Local Abbreviation run := (run getText parseDirective parseJSONLikeConfig).

(** C9.  On an instance on which [traverse] has not been called,
    whatever else was called, [getParent] is [undefined] for every node.
    Once [traverse] has been called, on a tree of distinct nodes,
    [getParent] is defined for every node of the tree other than the
    root, and gives a node of the tree that has it among its children.
    No call other than [traverse] changes the parent map. *)
Theorem getParent_after_traverse (txt : jsstring) (doc : DocumentNode) (calls : list Call) :
  let this := run calls (new_JSONSourceCode txt doc) in
  (existsb is_traverse calls = false -> forall n, getParent this n = None)
  /\ (existsb is_traverse calls = true -> distinct_nodes (doc_node doc) ->
      forall n, n ∈ nodes_of (doc_node doc) -> node_id n <> node_id (doc_node doc) ->
        exists p, getParent this n = Some p
                  /\ p ∈ nodes_of (doc_node doc) /\ n ∈ node_children p)
  /\ (forall c, is_traverse c = false ->
        parents (exec this c) = parents this
        /\ forall n, getParent (exec this c) n = getParent this n).
Proof.
  intros this.
  pose proof (run_traversal_state getText parseDirective parseJSONLikeConfig
                calls _ false (new_traversal_state txt doc)) as Hst.
  pose proof (run_ast getText parseDirective parseJSONLikeConfig calls txt doc) as Hast.
  fold this in Hst, Hast. simpl in Hst.
  split; [|split].
  - intros Hnone n. rewrite Hnone in Hst. destruct Hst as [_ Hp].
    unfold getParent. rewrite Hp. apply lookup_empty.
  - intros Hsome Hd n Hn Hroot. rewrite Hsome in Hst. destruct Hst as [_ Hp].
    rewrite Hast in Hp. unfold getParent. rewrite Hp. unfold iterator.
    destruct (visitNode_yields n (doc_node doc) None Hn) as [-> | (it & Hit & Hnode & Hpar)];
      [contradiction|].
    pose proof (record_parent_defined _ ∅ it Hit Hpar) as [p Hlk]. rewrite Hnode in Hlk.
    exists p. split; [exact Hlk|].
    destruct (record_parent_origin _ _ _ _ Hlk) as [(it' & Hit' & Hid & Hp') | Hempty];
      [|rewrite lookup_empty in Hempty; discriminate].
    destruct (visitNode_items _ _ _ Hit') as [[_ Hnop] | (p' & Hpp & Hp'in & Hch)];
      [congruence|].
    assert (p' = p) as -> by congruence. split; [exact Hp'in|].
    assert (it_node it' = n) as <-; [|exact Hch].
    apply (distinct_nodes_inj (doc_node doc)); [exact Hd | | exact Hn | exact Hid].
    apply (nodes_of_trans _ p); [apply nodes_of_child; exact Hch | exact Hp'in].
  - intros c Hc.
    destruct (exec_other_cache getText parseDirective parseJSONLikeConfig this c Hc) as [_ Hp].
    split; [exact Hp|]. intros n. unfold getParent. rewrite Hp. reflexivity.
Qed.

End ParentLookup.

(** ** Inline configuration comments *)

Lemma forEach_app {A S : Type} (callback : S -> A -> outcome S) (l1 l2 : list A) : forall s,
  forEach callback (l1 ++ l2) s = s' ← forEach callback l1 s; forEach callback l2 s'.
Proof.
  induction l1 as [|a l1 IH]; intros s; simpl; [reflexivity|].
  destruct (callback s a) as [s'|e]; simpl; [apply IH | reflexivity].
Qed.

Lemma forEach_ext {A S : Type} (f g : S -> A -> outcome S) (l : list A) :
  (forall s a, f s a = g s a) -> forall s, forEach f l s = forEach g l s.
Proof.
  intros Hfg. induction l as [|a l IH]; intros s; simpl; [reflexivity|].
  rewrite Hfg. destruct (g s a); simpl; [apply IH | reflexivity].
Qed.

Section DisableDirectives.

Variable getText : jsstring -> Token -> jsstring.
Variable parseDirective : jsstring -> option DirectiveComment.

Local Abbreviation getCommentValue := (getCommentValue getText).
Local Abbreviation getInlineConfigNodes := (getInlineConfigNodes getText).
Local Abbreviation parsed_directive := (parsed_directive getText parseDirective).
Local Abbreviation disableDirectives_callback :=
  (disableDirectives_callback getText parseDirective).
Local Abbreviation getDisableDirectives := (getDisableDirectives getText parseDirective).

Lemma getCommentValue_text a b comment :
  text a = text b -> getCommentValue a comment = getCommentValue b comment.
Proof. intros Ht. unfold getCommentValue. rewrite Ht. reflexivity. Qed.

Lemma getInlineConfigNodes_text this :
  text (snd (getInlineConfigNodes this)) = text this.
Proof.
  symmetry. exact (proj1 (proj2 (getInlineConfigNodes_document getText this))).
Qed.

Lemma disableDirectives_callback_pushes this acc comment :
  disableDirectives_callback this acc comment =
  d ← parsed_directive this comment; Returned (dd_append acc (directive_of d comment)).
Proof.
  unfold disableDirectives_callback, parsed_directive, directive_of.
  destruct (getCommentValue this comment) as [v|e]; simpl; [|reflexivity].
  destruct (parseDirective v) as [d|]; simpl; [|reflexivity].
  destruct (bool_decide (label d = js "eslint-disable-line")
            && negb (line (loc_start (tok_loc comment)) =? line (loc_end (tok_loc comment)))).
  - unfold dd_append. simpl. rewrite app_nil_r. reflexivity.
  - assert (Hlabels : bool_decide (label d = js "eslint-disable")
                      || bool_decide (label d = js "eslint-enable")
                      || bool_decide (label d = js "eslint-disable-next-line")
                      || bool_decide (label d = js "eslint-disable-line")
                      = bool_decide (label d ∈ directive_labels)).
    { unfold directive_labels. apply eq_true_iff_eq.
      rewrite !orb_true_iff, !bool_decide_eq_true, !elem_of_cons, elem_of_nil. tauto. }
    rewrite Hlabels. destruct (bool_decide (label d ∈ directive_labels)).
    + unfold dd_append. simpl. rewrite app_nil_r. reflexivity.
    + unfold dd_append. simpl. rewrite !app_nil_r. destruct acc; reflexivity.
Qed.

Lemma dd_append_assoc a b c : dd_append (dd_append a b) c = dd_append a (dd_append b c).
Proof. unfold dd_append. simpl. rewrite <- !app_assoc. reflexivity. Qed.

Lemma dd_append_empty_l a : dd_append (mkDisableDirectives [] []) a = a.
Proof. destruct a. reflexivity. Qed.

(** The loop only appends: started from filled arrays it yields them
    followed by what it yields from empty ones. *)
Lemma disableDirectives_forEach_appends this nodes : forall acc,
  forEach (disableDirectives_callback this) nodes acc =
  r ← forEach (disableDirectives_callback this) nodes (mkDisableDirectives [] []);
  Returned (dd_append acc r).
Proof.
  induction nodes as [|c nodes IH]; intros acc; simpl.
  - unfold dd_append. simpl. rewrite !app_nil_r. destruct acc; reflexivity.
  - rewrite !disableDirectives_callback_pushes.
    destruct (parsed_directive this c) as [d|e]; simpl; [|reflexivity].
    rewrite (IH (dd_append acc _)), (IH (dd_append (mkDisableDirectives [] []) _)).
    destruct (forEach _ nodes (mkDisableDirectives [] [])) as [r|e]; simpl; [|reflexivity].
    rewrite dd_append_empty_l, dd_append_assoc. reflexivity.
Qed.

(** The loop over a list of comments around one that is parsed. *)
Lemma disableDirectives_forEach_around this before comment after d r_before r_after :
  parsed_directive this comment = Returned d ->
  forEach (disableDirectives_callback this) before (mkDisableDirectives [] []) = Returned r_before ->
  forEach (disableDirectives_callback this) after (mkDisableDirectives [] []) = Returned r_after ->
  forEach (disableDirectives_callback this) (before ++ comment :: after) (mkDisableDirectives [] [])
  = Returned (dd_append r_before (dd_append (directive_of d comment) r_after)).
Proof.
  intros Hd Hb Ha. rewrite forEach_app, Hb. simpl.
  rewrite disableDirectives_callback_pushes, Hd. simpl.
  rewrite disableDirectives_forEach_appends, Ha. simpl.
  rewrite dd_append_assoc. reflexivity.
Qed.

(** [getDisableDirectives] is the loop over the inline configuration
    comments. *)
Lemma getDisableDirectives_forEach this nodes :
  fst (getInlineConfigNodes this) = Returned nodes ->
  fst (getDisableDirectives this)
  = forEach (disableDirectives_callback this) nodes (mkDisableDirectives [] []).
Proof.
  intros Hnodes. unfold getDisableDirectives.
  pose proof (getInlineConfigNodes_text this) as Ht.
  destruct (getInlineConfigNodes this) as [[nodes'|e] this']; simpl in *; [|discriminate].
  injection Hnodes as ->. apply forEach_ext. intros s a.
  unfold disableDirectives_callback.
  rewrite (getCommentValue_text this' this a Ht). reflexivity.
Qed.

(** C5.  Take an inline configuration comment -- one of the comments
    [getInlineConfigNodes] returns -- whose text parses to the directive
    [d], and let the comments before and after it yield [r_before] and
    [r_after] on their own.  If the label of [d] is one of
    [eslint-disable], [eslint-enable], [eslint-disable-next-line] and
    [eslint-disable-line] (with start and end line equal in the last
    case), the comment makes [getDisableDirectives] push exactly one
    [Directive]: its type is the label without the prefix [eslint-], its
    node the comment, its value and justification those of [d]; no
    problem is pushed.  If the label is [eslint], the comment pushes
    nothing. *)
Theorem getDisableDirectives_directive (this : JSONSourceCode)
  (before : list Token) (comment : Token) (after : list Token)
  (d : DirectiveComment) (r_before r_after : DisableDirectives) :
  fst (getInlineConfigNodes this) = Returned (before ++ comment :: after) ->
  parsed_directive this comment = Returned d ->
  forEach (disableDirectives_callback this) before (mkDisableDirectives [] []) = Returned r_before ->
  forEach (disableDirectives_callback this) after (mkDisableDirectives [] []) = Returned r_after ->
  (label d ∈ directive_labels ->
   (label d = js "eslint-disable-line" ->
    line (loc_start (tok_loc comment)) = line (loc_end (tok_loc comment))) ->
   let directive :=
     mkDirective (slice (label d) 7 None) comment (value d) (justification d) in
   label d = js "eslint-" ++ dir_type directive
   /\ (forall acc,
         disableDirectives_callback this acc comment
         = Returned (mkDisableDirectives (dd_problems acc) (dd_directives acc ++ [directive])))
   /\ fst (getDisableDirectives this)
      = Returned (mkDisableDirectives
                    (dd_problems r_before ++ dd_problems r_after)
                    (dd_directives r_before ++ directive :: dd_directives r_after)))
  /\ (label d = js "eslint" ->
      (forall acc, disableDirectives_callback this acc comment = Returned acc)
      /\ fst (getDisableDirectives this)
         = Returned (mkDisableDirectives
                       (dd_problems r_before ++ dd_problems r_after)
                       (dd_directives r_before ++ dd_directives r_after))).
Proof.
  intros Hnodes Hd Hb Ha.
  pose proof (disableDirectives_forEach_around this before comment after d _ _ Hd Hb Ha) as Hloop.
  rewrite <- (getDisableDirectives_forEach this _ Hnodes) in Hloop.
  split.
  - intros Hlabel Hline directive.
    assert (Hof : directive_of d comment = mkDisableDirectives [] [directive]).
    { unfold directive_of.
      assert (Hfirst : bool_decide (label d = js "eslint-disable-line")
                && negb (line (loc_start (tok_loc comment)) =? line (loc_end (tok_loc comment)))
                = false).
      { destruct (bool_decide (label d = js "eslint-disable-line")) eqn:Hdl; [|reflexivity].
        apply bool_decide_eq_true in Hdl. rewrite (Hline Hdl), Z.eqb_refl. reflexivity. }
      rewrite Hfirst. rewrite (bool_decide_eq_true_2 _ Hlabel). reflexivity. }
    split; [|split].
    + unfold directive_labels in Hlabel. rewrite !elem_of_cons, elem_of_nil in Hlabel.
      subst directive. simpl.
      destruct Hlabel as [-> | [-> | [-> | [-> | []]]]]; reflexivity.
    + intros acc. rewrite disableDirectives_callback_pushes, Hd. simpl. rewrite Hof.
      unfold dd_append. simpl. rewrite app_nil_r. reflexivity.
    + rewrite Hloop, Hof. reflexivity.
  - intros Hlabel.
    assert (Hof : directive_of d comment = mkDisableDirectives [] []).
    { unfold directive_of. rewrite Hlabel. reflexivity. }
    split.
    + intros acc. rewrite disableDirectives_callback_pushes, Hd. simpl. rewrite Hof.
      unfold dd_append. simpl. rewrite !app_nil_r. destruct acc; reflexivity.
    + rewrite Hloop, Hof. reflexivity.
Qed.

(** C6.  In the same setting, if the label of [d] is
    [eslint-disable-line] and the comment starts and ends on different
    lines, the comment makes [getDisableDirectives] push no directive
    and exactly one problem: [ruleId] is [null], the message says that
    the comment should not span multiple lines, and [loc] is the
    location of the comment. *)
Theorem getDisableDirectives_multiline (this : JSONSourceCode)
  (before : list Token) (comment : Token) (after : list Token)
  (d : DirectiveComment) (r_before r_after : DisableDirectives) :
  fst (getInlineConfigNodes this) = Returned (before ++ comment :: after) ->
  parsed_directive this comment = Returned d ->
  forEach (disableDirectives_callback this) before (mkDisableDirectives [] []) = Returned r_before ->
  forEach (disableDirectives_callback this) after (mkDisableDirectives [] []) = Returned r_after ->
  label d = js "eslint-disable-line" ->
  line (loc_start (tok_loc comment)) <> line (loc_end (tok_loc comment)) ->
  let problem :=
    JsObject [ (js "ruleId", JsNull);
               (js "message",
                JsString (js "eslint-disable-line comment should not span multiple lines."));
               (js "loc", js_of_loc (tok_loc comment)) ] in
  (forall acc,
     disableDirectives_callback this acc comment
     = Returned (mkDisableDirectives (dd_problems acc ++ [problem]) (dd_directives acc)))
  /\ fst (getDisableDirectives this)
     = Returned (mkDisableDirectives
                   (dd_problems r_before ++ problem :: dd_problems r_after)
                   (dd_directives r_before ++ dd_directives r_after)).
Proof.
  intros Hnodes Hd Hb Ha Hlabel Hline problem.
  pose proof (disableDirectives_forEach_around this before comment after d _ _ Hd Hb Ha) as Hloop.
  rewrite <- (getDisableDirectives_forEach this _ Hnodes) in Hloop.
  assert (Hof : directive_of d comment = mkDisableDirectives [problem] []).
  { unfold directive_of. rewrite Hlabel.
    apply Z.eqb_neq in Hline. rewrite Hline. reflexivity. }
  split.
  - intros acc. rewrite disableDirectives_callback_pushes, Hd. simpl. rewrite Hof.
    unfold dd_append. simpl. rewrite app_nil_r. reflexivity.
  - rewrite Hloop, Hof. reflexivity.
Qed.

End DisableDirectives.

Section InlineConfiguration.

Variable getText : jsstring -> Token -> jsstring.
Variable parseDirective : jsstring -> option DirectiveComment.
Variable parseJSONLikeConfig : jsstring -> ParseResult.

Local Abbreviation getCommentValue := (getCommentValue getText).
Local Abbreviation getInlineConfigNodes := (getInlineConfigNodes getText).
Local Abbreviation parsed_directive := (parsed_directive getText parseDirective).
Local Abbreviation applyInlineConfig_callback :=
  (applyInlineConfig_callback getText parseDirective parseJSONLikeConfig).
Local Abbreviation applyInlineConfig :=
  (applyInlineConfig getText parseDirective parseJSONLikeConfig).

Lemma applyInlineConfig_callback_pushes this acc comment :
  applyInlineConfig_callback this acc comment =
  d ← parsed_directive this comment;
  Returned (ic_append acc (config_of parseJSONLikeConfig d comment)).
Proof.
  unfold applyInlineConfig_callback, parsed_directive, config_of.
  destruct (getCommentValue this comment) as [v|e]; simpl; [|reflexivity].
  destruct (parseDirective v) as [d|]; simpl; [|reflexivity].
  destruct (bool_decide (label d = js "eslint")).
  - destruct (parseJSONLikeConfig (value d)); unfold ic_append; simpl;
      rewrite app_nil_r; reflexivity.
  - unfold ic_append. simpl. rewrite !app_nil_r. destruct acc; reflexivity.
Qed.

Lemma ic_append_assoc a b c : ic_append (ic_append a b) c = ic_append a (ic_append b c).
Proof. unfold ic_append. simpl. rewrite <- !app_assoc. reflexivity. Qed.

Lemma ic_append_empty_l a : ic_append (mkInlineConfig [] []) a = a.
Proof. destruct a. reflexivity. Qed.

Lemma applyInlineConfig_forEach_appends this nodes : forall acc,
  forEach (applyInlineConfig_callback this) nodes acc =
  r ← forEach (applyInlineConfig_callback this) nodes (mkInlineConfig [] []);
  Returned (ic_append acc r).
Proof.
  induction nodes as [|c nodes IH]; intros acc; simpl.
  - unfold ic_append. simpl. rewrite !app_nil_r. destruct acc; reflexivity.
  - rewrite !applyInlineConfig_callback_pushes.
    destruct (parsed_directive this c) as [d|e]; simpl; [|reflexivity].
    rewrite (IH (ic_append acc _)), (IH (ic_append (mkInlineConfig [] []) _)).
    destruct (forEach _ nodes (mkInlineConfig [] [])) as [r|e]; simpl; [|reflexivity].
    rewrite ic_append_empty_l, ic_append_assoc. reflexivity.
Qed.

Lemma applyInlineConfig_forEach_around this before comment after d r_before r_after :
  parsed_directive this comment = Returned d ->
  forEach (applyInlineConfig_callback this) before (mkInlineConfig [] []) = Returned r_before ->
  forEach (applyInlineConfig_callback this) after (mkInlineConfig [] []) = Returned r_after ->
  forEach (applyInlineConfig_callback this) (before ++ comment :: after) (mkInlineConfig [] [])
  = Returned (ic_append r_before (ic_append (config_of parseJSONLikeConfig d comment) r_after)).
Proof.
  intros Hd Hb Ha. rewrite forEach_app, Hb. simpl.
  rewrite applyInlineConfig_callback_pushes, Hd. simpl.
  rewrite applyInlineConfig_forEach_appends, Ha. simpl.
  rewrite ic_append_assoc. reflexivity.
Qed.

Lemma applyInlineConfig_forEach_without this before after r_before r_after :
  forEach (applyInlineConfig_callback this) before (mkInlineConfig [] []) = Returned r_before ->
  forEach (applyInlineConfig_callback this) after (mkInlineConfig [] []) = Returned r_after ->
  forEach (applyInlineConfig_callback this) (before ++ after) (mkInlineConfig [] [])
  = Returned (ic_append r_before r_after).
Proof.
  intros Hb Ha. rewrite forEach_app, Hb. simpl.
  rewrite applyInlineConfig_forEach_appends, Ha. reflexivity.
Qed.

Lemma applyInlineConfig_forEach this nodes :
  fst (getInlineConfigNodes this) = Returned nodes ->
  fst (applyInlineConfig this)
  = forEach (applyInlineConfig_callback this) nodes (mkInlineConfig [] []).
Proof.
  intros Hnodes. unfold applyInlineConfig.
  pose proof (getInlineConfigNodes_text getText this) as Ht.
  destruct (getInlineConfigNodes this) as [[nodes'|e] this']; simpl in *; [|discriminate].
  injection Hnodes as ->. apply forEach_ext. intros s a.
  unfold applyInlineConfig_callback.
  rewrite (getCommentValue_text getText this' this a Ht). reflexivity.
Qed.

(** C4, as amended.  Take an inline configuration comment whose text
    parses to a directive [d] with label [eslint], and let the comments
    before and after it yield [r_before] and [r_after] on their own.  If
    the configuration parser succeeds on the value of [d], the comment
    makes [applyInlineConfig] push exactly one entry
    [{ config: { rules }, loc }], [rules] being the parsed mapping and
    [loc] the location of the comment, and no problem.  If the parser
    fails, the comment makes it push no entry and exactly one problem
    with [ruleId] [null], the message of the parser and the location of
    the comment; the call still returns, and what the other comments
    yield is what they yield without it. *)
Theorem applyInlineConfig_eslint (this : JSONSourceCode)
  (before : list Token) (comment : Token) (after : list Token)
  (d : DirectiveComment) (r_before r_after : InlineConfig) :
  fst (getInlineConfigNodes this) = Returned (before ++ comment :: after) ->
  parsed_directive this comment = Returned d ->
  forEach (applyInlineConfig_callback this) before (mkInlineConfig [] []) = Returned r_before ->
  forEach (applyInlineConfig_callback this) after (mkInlineConfig [] []) = Returned r_after ->
  label d = js "eslint" ->
  (forall rules, parseJSONLikeConfig (value d) = ParseOk rules ->
     let entry :=
       JsObject [ (js "config", JsObject [ (js "rules", rules) ]);
                  (js "loc", js_of_loc (tok_loc comment)) ] in
     (forall acc,
        applyInlineConfig_callback this acc comment
        = Returned (mkInlineConfig (ic_configs acc ++ [entry]) (ic_problems acc)))
     /\ fst (applyInlineConfig this)
        = Returned (mkInlineConfig
                      (ic_configs r_before ++ entry :: ic_configs r_after)
                      (ic_problems r_before ++ ic_problems r_after)))
  /\ (forall message, parseJSONLikeConfig (value d) = ParseFailed message ->
       let problem :=
         JsObject [ (js "ruleId", JsNull);
                    (js "message", JsString message);
                    (js "loc", js_of_loc (tok_loc comment)) ] in
       (forall acc,
          applyInlineConfig_callback this acc comment
          = Returned (mkInlineConfig (ic_configs acc) (ic_problems acc ++ [problem])))
       /\ fst (applyInlineConfig this)
          = Returned (mkInlineConfig
                        (ic_configs r_before ++ ic_configs r_after)
                        (ic_problems r_before ++ problem :: ic_problems r_after))
       /\ forEach (applyInlineConfig_callback this) (before ++ after) (mkInlineConfig [] [])
          = Returned (mkInlineConfig
                        (ic_configs r_before ++ ic_configs r_after)
                        (ic_problems r_before ++ ic_problems r_after))).
Proof.
  intros Hnodes Hd Hb Ha Hlabel.
  pose proof (applyInlineConfig_forEach_around this before comment after d _ _ Hd Hb Ha) as Hloop.
  rewrite <- (applyInlineConfig_forEach this _ Hnodes) in Hloop.
  split.
  - intros rules Hok entry.
    assert (Hof : config_of parseJSONLikeConfig d comment = mkInlineConfig [entry] []).
    { unfold config_of. rewrite Hlabel, Hok. reflexivity. }
    split.
    + intros acc. rewrite applyInlineConfig_callback_pushes, Hd. simpl. rewrite Hof.
      unfold ic_append. simpl. rewrite app_nil_r. reflexivity.
    + rewrite Hloop, Hof. reflexivity.
  - intros message Hfail problem.
    assert (Hof : config_of parseJSONLikeConfig d comment = mkInlineConfig [] [problem]).
    { unfold config_of. rewrite Hlabel, Hfail. reflexivity. }
    split; [|split].
    + intros acc. rewrite applyInlineConfig_callback_pushes, Hd. simpl. rewrite Hof.
      unfold ic_append. simpl. rewrite app_nil_r. reflexivity.
    + rewrite Hloop, Hof. reflexivity.
    + apply applyInlineConfig_forEach_without; assumption.
Qed.

End InlineConfiguration.

(** ** Documents without a token array *)

Section NoTokens.

Variable getText : jsstring -> Token -> jsstring.
Variable parseDirective : jsstring -> option DirectiveComment.
Variable parseJSONLikeConfig : jsstring -> ParseResult.

Local Abbreviation exec := (exec getText parseDirective parseJSONLikeConfig).
Local Abbreviation run := (run getText parseDirective parseJSONLikeConfig).
Local Abbreviation getInlineConfigNodes := (getInlineConfigNodes getText).
Local Abbreviation getDisableDirectives := (getDisableDirectives getText parseDirective).
Local Abbreviation applyInlineConfig :=
  (applyInlineConfig getText parseDirective parseJSONLikeConfig).





End NoTokens.

(** ** The model on the sample documents *)

(** Settles, for a concrete token array, a goal about all tokens at the
    indices [j] that satisfy [Hlt], by going through the array. *)
Ltac later_tokens j Hlt Hj :=
  cbn in Hj;
  first
    [ discriminate Hj
    | destruct j as [|j];
      [ first [ exfalso; lia
              | injection Hj as <-; intros Heq; vm_compute in Heq; discriminate Heq
              | injection Hj as <-; vm_compute; reflexivity ]
      | later_tokens j Hlt Hj ] ].

Example INLINE_CONFIG_matches :
  List.map INLINE_CONFIG_test
    [ js "eslint"; js " eslint-disable"; js "eslint-disable-line foo";
      js "  eslint-disable-next-line"; js "eslint-enable ";
      js "eslint-next-line"; js "eslint-disable-next"; js "eslintx";
      js "x eslint"; js "eslint-enable-line" ]
  = [ true; true; true; true; true; false; false; false; false; false ].
Proof. vm_compute. reflexivity. Qed.

Example sample_inline_config_nodes :
  fst (getInlineConfigNodes sample_getText (new_JSONSourceCode sample_text sample_document))
  = Returned [comment_C; comment_D; comment_A; comment_B].
Proof. vm_compute. reflexivity. Qed.

Example tree_traversal :
  List.map (fun s => (Z.of_nat (node_id (target s)), phase s))
    (iterate (fst (traverse (new_JSONSourceCode tree_text tree_document))))
  = [ (0, 1); (1, 1); (2, 1); (3, 1); (3, 2); (4, 1); (4, 2); (2, 2);
      (5, 1); (6, 1); (6, 2); (7, 1); (8, 1); (9, 1); (9, 2); (8, 2); (7, 2); (5, 2);
      (10, 1); (11, 1); (11, 2); (12, 1); (12, 2); (10, 2); (1, 2); (0, 2) ].
Proof. vm_compute. reflexivity. Qed.

(** With a shared start offset the map locates both tokens at the later
    index, so the query on the first token returns that token itself. *)
Example shared_start_offset :
  getTokenBefore
    (new_JSONSourceCode (js "1") (mkDocument sample_root (Some overlapping_tokens)))
    (AToken empty_token) false
  = Returned (Ref empty_token).
Proof. vm_compute. reflexivity. Qed.

Lemma processTokens_offset_maps_witness :
  tokenStarts (new_JSONSourceCode sample_text sample_document) !! 81 = Some 4%nat
  /\ tokenEnds (new_JSONSourceCode sample_text sample_document) !! 127 = Some 4%nat.
Proof.
  destruct (proj1 (processTokens_offset_maps sample_text sample_root sample_tokens)
              4%nat comment_A eq_refl) as [Hs He].
  split.
  - apply Hs. intros j t' Hlt Hj. later_tokens j Hlt Hj.
  - apply He. intros j t' Hlt Hj. later_tokens j Hlt Hj.
Defined.






(** The iterator a later call of [traverse] returns is used up by one
    loop: on the tree sample the first loop over it sees the 26 steps of
    the first call, a second loop over the same iterator sees none. *)
Lemma traverse_iterator_one_shot :
  fst (for_of (fst (traverse tree_traversed))) = iterate (fst (traverse tree_new))
  /\ length (iterate (fst (traverse tree_new))) = 26%nat
  /\ fst (for_of (snd (for_of (fst (traverse tree_traversed))))) = []
  /\ fst (for_of (snd (for_of (fst (traverse tree_traversed)))))
     <> iterate (fst (traverse tree_new)).
Proof.
  assert (H : fst (for_of (snd (for_of (fst (traverse tree_traversed))))) = [])
    by (vm_compute; reflexivity).
  split; [vm_compute; reflexivity|]. split; [vm_compute; reflexivity|].
  split; [exact H|]. rewrite H. intros Heq. vm_compute in Heq. discriminate Heq.
Qed.

Lemma traverse_is_cached_witness :
  steps tree_new = None
  /\ fst (for_of (snd (for_of (fst (traverse tree_new))))) = iterate (fst (traverse tree_new)).
Proof.
  split; [reflexivity|].
  exact (proj2 (proj2 (proj2 (proj2 (proj2 (proj2 (proj2 (proj2
           (traverse_is_cached sample_getText sample_parseDirective
              sample_parseJSONLikeConfig tree_new []))))))))
         eq_refl).
Defined.

Lemma tree_distinct_nodes : distinct_nodes tree_root.
Proof.
  unfold distinct_nodes.
  apply (bool_decide_unpack (NoDup (node_id <$> nodes_of tree_root))).
  vm_compute. exact I.
Defined.

Lemma tree_object_in_tree : tree_object ∈ nodes_of tree_root.
Proof. rewrite nodes_of_eq. right. apply list_elem_of_bind. exists tree_object.
  split; [apply nodes_of_self | left]. Defined.

Lemma member_b_in_tree : member_b ∈ nodes_of tree_root.
Proof.
  apply (nodes_of_trans _ tree_object); [|exact tree_object_in_tree].
  apply nodes_of_child. right. left.
Defined.

Lemma traverse_order_witness :
  (distinct_nodes (doc_node tree_document) /\ tree_object ∈ nodes_of (doc_node tree_document))
  /\ target <$> filter (child_step tree_object 1)
                  (iterate (fst (traverse
                     (run sample_getText sample_parseDirective sample_parseJSONLikeConfig
                        [CallTraverse] (new_JSONSourceCode tree_text tree_document)))))
     = [member_a; member_b; member_c].
Proof.
  split; [split; [exact tree_distinct_nodes | exact tree_object_in_tree]|].
  exact (proj2 (proj2
           (traverse_order sample_getText sample_parseDirective sample_parseJSONLikeConfig
              tree_text tree_document [CallTraverse] tree_object
              tree_distinct_nodes tree_object_in_tree))
         1 (or_introl eq_refl)).
Defined.

Lemma getParent_after_traverse_witness :
  (existsb is_traverse [CallGetInlineConfigNodes; CallTraverse] = true
   /\ distinct_nodes (doc_node tree_document)
   /\ member_b ∈ nodes_of (doc_node tree_document)
   /\ node_id member_b <> node_id (doc_node tree_document))
  /\ exists p,
       getParent (run sample_getText sample_parseDirective sample_parseJSONLikeConfig
                    [CallGetInlineConfigNodes; CallTraverse]
                    (new_JSONSourceCode tree_text tree_document)) member_b = Some p
       /\ p ∈ nodes_of (doc_node tree_document) /\ member_b ∈ node_children p.
Proof.
  assert (Hid : node_id member_b <> node_id (doc_node tree_document)).
  { simpl. lia. }
  split; [repeat split; [exact tree_distinct_nodes | exact member_b_in_tree | exact Hid]|].
  exact (proj1 (proj2
           (getParent_after_traverse sample_getText sample_parseDirective
              sample_parseJSONLikeConfig tree_text tree_document
              [CallGetInlineConfigNodes; CallTraverse]))
         eq_refl tree_distinct_nodes member_b member_b_in_tree Hid).
Defined.

Example getParent_member_b :
  getParent (snd (traverse (new_JSONSourceCode tree_text tree_document))) member_b
  = Some tree_object.
Proof. vm_compute. reflexivity. Qed.

(** Scenario A: the single-line comment yields one directive. *)
Lemma getDisableDirectives_directive_witness :
  (fst (getInlineConfigNodes sample_getText sample_new)
   = Returned ([comment_C; comment_D] ++ comment_A :: [comment_B])
   /\ parsed_directive sample_getText sample_parseDirective sample_new comment_A = Returned parsed_A
   /\ forEach (disableDirectives_callback sample_getText sample_parseDirective sample_new)
        [comment_C; comment_D] (mkDisableDirectives [] [])
      = Returned (mkDisableDirectives [] [])
   /\ forEach (disableDirectives_callback sample_getText sample_parseDirective sample_new)
        [comment_B] (mkDisableDirectives [] [])
      = Returned (mkDisableDirectives [problem_B] [])
   /\ label parsed_A ∈ directive_labels
   /\ (label parsed_A = js "eslint-disable-line" ->
       line (loc_start (tok_loc comment_A)) = line (loc_end (tok_loc comment_A))))
  /\ fst (getDisableDirectives sample_getText sample_parseDirective sample_new)
     = Returned (mkDisableDirectives [problem_B] [directive_A]).
Proof.
    assert (H1 : fst (getInlineConfigNodes sample_getText sample_new)
               = Returned ([comment_C; comment_D] ++ comment_A :: [comment_B]))
    by (vm_compute; reflexivity).
  assert (H2 : parsed_directive sample_getText sample_parseDirective sample_new comment_A
               = Returned parsed_A) by (vm_compute; reflexivity).
  assert (H3 : forEach (disableDirectives_callback sample_getText sample_parseDirective sample_new)
                 [comment_C; comment_D] (mkDisableDirectives [] [])
               = Returned (mkDisableDirectives [] [])) by (vm_compute; reflexivity).
  assert (H4 : forEach (disableDirectives_callback sample_getText sample_parseDirective sample_new)
                 [comment_B] (mkDisableDirectives [] [])
               = Returned (mkDisableDirectives [problem_B] [])) by (vm_compute; reflexivity).
  assert (H5 : label parsed_A ∈ directive_labels) by (do 3 right; left).
  assert (H6 : label parsed_A = js "eslint-disable-line" ->
               line (loc_start (tok_loc comment_A)) = line (loc_end (tok_loc comment_A)))
    by (intros _; reflexivity).
  split; [repeat split; assumption|].
  exact (proj2 (proj2 (proj1
           (getDisableDirectives_directive sample_getText sample_parseDirective sample_new
              [comment_C; comment_D] comment_A [comment_B] parsed_A _ _ H1 H2 H3 H4) H5 H6))).
Defined.

(** Scenario B: the comment over two lines yields one problem. *)
Lemma getDisableDirectives_multiline_witness :
  (fst (getInlineConfigNodes sample_getText sample_new)
   = Returned ([comment_C; comment_D; comment_A] ++ comment_B :: [])
   /\ parsed_directive sample_getText sample_parseDirective sample_new comment_B = Returned parsed_A
   /\ forEach (disableDirectives_callback sample_getText sample_parseDirective sample_new)
        [comment_C; comment_D; comment_A] (mkDisableDirectives [] [])
      = Returned (mkDisableDirectives [] [directive_A])
   /\ forEach (disableDirectives_callback sample_getText sample_parseDirective sample_new)
        [] (mkDisableDirectives [] [])
      = Returned (mkDisableDirectives [] [])
   /\ label parsed_A = js "eslint-disable-line"
   /\ line (loc_start (tok_loc comment_B)) <> line (loc_end (tok_loc comment_B)))
  /\ fst (getDisableDirectives sample_getText sample_parseDirective sample_new)
     = Returned (mkDisableDirectives [problem_B] [directive_A]).
Proof.
    assert (H1 : fst (getInlineConfigNodes sample_getText sample_new)
               = Returned ([comment_C; comment_D; comment_A] ++ comment_B :: []))
    by (vm_compute; reflexivity).
  assert (H2 : parsed_directive sample_getText sample_parseDirective sample_new comment_B
               = Returned parsed_A) by (vm_compute; reflexivity).
  assert (H3 : forEach (disableDirectives_callback sample_getText sample_parseDirective sample_new)
                 [comment_C; comment_D; comment_A] (mkDisableDirectives [] [])
               = Returned (mkDisableDirectives [] [directive_A])) by (vm_compute; reflexivity).
  assert (H4 : forEach (disableDirectives_callback sample_getText sample_parseDirective sample_new)
                 [] (mkDisableDirectives [] [])
               = Returned (mkDisableDirectives [] [])) by reflexivity.
  assert (H5 : label parsed_A = js "eslint-disable-line") by reflexivity.
  assert (H6 : line (loc_start (tok_loc comment_B)) <> line (loc_end (tok_loc comment_B)))
    by (simpl; lia).
  split; [repeat split; assumption|].
  exact (proj2 (getDisableDirectives_multiline sample_getText sample_parseDirective sample_new
                  [comment_C; comment_D; comment_A] comment_B [] parsed_A _ _ H1 H2 H3 H4 H5 H6)).
Defined.

(** Scenarios C and D side by side: the well-formed configuration
    comment yields one entry, the malformed one a problem, and the
    entry is there all the same. *)
Lemma applyInlineConfig_eslint_witness :
  (fst (getInlineConfigNodes sample_getText sample_new)
   = Returned ([] ++ comment_C :: [comment_D; comment_A; comment_B])
   /\ parsed_directive sample_getText sample_parseDirective sample_new comment_C = Returned parsed_C
   /\ forEach (applyInlineConfig_callback sample_getText sample_parseDirective
                 sample_parseJSONLikeConfig sample_new) [] (mkInlineConfig [] [])
      = Returned (mkInlineConfig [] [])
   /\ forEach (applyInlineConfig_callback sample_getText sample_parseDirective
                 sample_parseJSONLikeConfig sample_new)
        [comment_D; comment_A; comment_B] (mkInlineConfig [] [])
      = Returned (mkInlineConfig [] [problem_D])
   /\ label parsed_C = js "eslint"
   /\ sample_parseJSONLikeConfig (value parsed_C) = ParseOk rules_C)
  /\ fst (applyInlineConfig sample_getText sample_parseDirective sample_parseJSONLikeConfig sample_new)
     = Returned (mkInlineConfig [entry_C] [problem_D]).
Proof.
    assert (H1 : fst (getInlineConfigNodes sample_getText sample_new)
               = Returned ([] ++ comment_C :: [comment_D; comment_A; comment_B]))
    by (vm_compute; reflexivity).
  assert (H2 : parsed_directive sample_getText sample_parseDirective sample_new comment_C
               = Returned parsed_C) by (vm_compute; reflexivity).
  assert (H3 : forEach (applyInlineConfig_callback sample_getText sample_parseDirective
                          sample_parseJSONLikeConfig sample_new) [] (mkInlineConfig [] [])
               = Returned (mkInlineConfig [] [])) by reflexivity.
  assert (H4 : forEach (applyInlineConfig_callback sample_getText sample_parseDirective
                          sample_parseJSONLikeConfig sample_new)
                 [comment_D; comment_A; comment_B] (mkInlineConfig [] [])
               = Returned (mkInlineConfig [] [problem_D])) by (vm_compute; reflexivity).
  assert (H5 : label parsed_C = js "eslint") by reflexivity.
  assert (H6 : sample_parseJSONLikeConfig (value parsed_C) = ParseOk rules_C)
    by (vm_compute; reflexivity).
  split; [repeat split; assumption|].
  exact (proj2 (proj1
           (applyInlineConfig_eslint sample_getText sample_parseDirective
              sample_parseJSONLikeConfig sample_new [] comment_C [comment_D; comment_A; comment_B]
              parsed_C _ _ H1 H2 H3 H4 H5) rules_C H6)).
Defined.

(** Scenario C of the specification expects the entry
    [{ rules, loc }]; the entry [applyInlineConfig] returns keeps the
    rules one level down, under [config], and has no [rules] property of
    its own. *)
Lemma applyInlineConfig_scenario_C :
  fst (applyInlineConfig sample_getText sample_parseDirective sample_parseJSONLikeConfig
         (new_JSONSourceCode scenario_C_text scenario_C_document))
  = Returned (mkInlineConfig [entry_C] [])
  /\ fst (applyInlineConfig sample_getText sample_parseDirective sample_parseJSONLikeConfig
            (new_JSONSourceCode scenario_C_text scenario_C_document))
     <> Returned (mkInlineConfig [scenario_entry rules_C comment_C] [])
  /\ get_prop entry_C (js "rules") = None
  /\ get_prop (scenario_entry rules_C comment_C) (js "rules") = Some rules_C.
Proof.
  assert (Hr : fst (applyInlineConfig sample_getText sample_parseDirective
                      sample_parseJSONLikeConfig
                      (new_JSONSourceCode scenario_C_text scenario_C_document))
               = Returned (mkInlineConfig [entry_C] [])) by (vm_compute; reflexivity).
  split; [exact Hr|]. split; [|split].
  - rewrite Hr. intros Heq. vm_compute in Heq. discriminate Heq.
  - vm_compute. reflexivity.
  - vm_compute. reflexivity.
Qed.

(** * Further properties of the class *)

(** ** The comment list and the offset maps *)

Lemma processTokens_from_comments tokens : forall i acc,
  pt_comments (processTokens_from i tokens acc)
  = pt_comments acc ++ List.filter isCommentToken tokens.
Proof.
  induction tokens as [|t rest IH]; intros i acc; simpl.
  - rewrite app_nil_r. reflexivity.
  - rewrite IH. simpl. destruct (isCommentToken t); simpl.
    + rewrite <- app_assoc. reflexivity.
    + reflexivity.
Qed.

(** A token with a key distinct from all others is the last with it. *)
Lemma NoDup_last_with key (tokens : list Token) i t :
  NoDup (key <$> tokens) -> tokens !! i = Some t -> last_with key tokens (key t) i.
Proof.
  intros Hnd Hi. split; [exists t; auto|].
  intros j t' Hlt Hj Heq.
  assert (Hi' : (key <$> tokens) !! i = Some (key t))
    by (rewrite list_lookup_fmap, Hi; reflexivity).
  assert (Hj' : (key <$> tokens) !! j = Some (key t))
    by (rewrite list_lookup_fmap, Hj; simpl; rewrite Heq; reflexivity).
  pose proof (NoDup_lookup _ i j _ Hnd Hi' Hj'). lia.
Qed.

Lemma getTokenBefore_same_document a b x includeComments :
  same_document a b -> getTokenBefore a x includeComments = getTokenBefore b x includeComments.
Proof.
  intros (Hast & _ & _ & Hs & _). unfold getTokenBefore. rewrite Hast, Hs. reflexivity.
Qed.

Lemma getTokenAfter_same_document a b x includeComments :
  same_document a b -> getTokenAfter a x includeComments = getTokenAfter b x includeComments.
Proof.
  intros (Hast & _ & _ & _ & He). unfold getTokenAfter. rewrite Hast, He. reflexivity.
Qed.

(** A statement about the range of an argument whose range is known. *)
Lemma given_range (range : Z * Z) (P : Z * Z -> Prop) :
  (exists range', Some range = Some range' /\ P range') <-> P range.
Proof.
  split.
  - intros (range' & Heq & HP). injection Heq as <-. exact HP.
  - intros HP. exists range. split; [reflexivity | exact HP].
Qed.

Section TokenProperties.

Variable getText : jsstring -> Token -> jsstring.
Variable parseDirective : jsstring -> option DirectiveComment.
Variable parseJSONLikeConfig : jsstring -> ParseResult.

Local Abbreviation run := (run getText parseDirective parseJSONLikeConfig).

(** X1.  The public [comments] field holds the tokens of the array whose
    type ends in [Comment], in array order, from construction on and
    after any calls. *)
Theorem comments_are_comment_tokens (txt : jsstring) (root : Node)
  (tokens : list Token) (calls : list Call) :
  comments (run calls (new_JSONSourceCode txt (mkDocument root (Some tokens))))
  = List.filter isCommentToken tokens.
Proof.
  pose proof (run_document getText parseDirective parseJSONLikeConfig calls
                (new_JSONSourceCode txt (mkDocument root (Some tokens)))) as (_ & _ & Hc & _).
  rewrite <- Hc. unfold new_JSONSourceCode, processTokens. simpl.
  rewrite processTokens_from_comments. reflexivity.
Qed.

(** X2.  The keys of the start-offset map are exactly the start offsets
    of the tokens, and every value is the index of a token that starts
    at its key; likewise for the end-offset map.  So for an element
    whose range starts where no token starts [getTokenBefore] returns
    [null], and for one whose range ends where no token ends
    [getTokenAfter] does. *)
Theorem offset_map_keys (txt : jsstring) (root : Node) (tokens : list Token)
  (calls : list Call) :
  let this := run calls (new_JSONSourceCode txt (mkDocument root (Some tokens))) in
  (forall o,
     (tokenStarts this !! o = None <-> forall t, t ∈ tokens -> fst (tok_range t) <> o)
     /\ (forall i, tokenStarts this !! o = Some i ->
           exists t, tokens !! i = Some t /\ fst (tok_range t) = o)
     /\ (tokenEnds this !! o = None <-> forall t, t ∈ tokens -> snd (tok_range t) <> o)
     /\ (forall i, tokenEnds this !! o = Some i ->
           exists t, tokens !! i = Some t /\ snd (tok_range t) = o))
  /\ (forall x range includeComments,
        range_of x = Some range ->
        (forall t, t ∈ tokens -> fst (tok_range t) <> fst range) ->
        getTokenBefore this x includeComments = Returned Null)
  /\ (forall x range includeComments,
        range_of x = Some range ->
        (forall t, t ∈ tokens -> snd (tok_range t) <> snd range) ->
        getTokenAfter this x includeComments = Returned Null).
Proof.
  intros this.
  destruct (run_indexed getText parseDirective parseJSONLikeConfig calls txt
              (mkDocument root (Some tokens))) as [Hs He].
  fold this in Hs, He. unfold this in Hs at 2, He at 2. rewrite run_ast in Hs, He.
  simpl in Hs, He.
  assert (Hkeys : forall key o,
            (index_by key 0 tokens ∅ !! o = None <-> forall t, t ∈ tokens -> key t <> o)
            /\ (forall i, index_by key 0 tokens ∅ !! o = Some i ->
                  exists t, tokens !! i = Some t /\ key t = o)).
  { intros key o. split; [split|].
    - intros Hnone t Ht Heq. apply list_elem_of_lookup_1 in Ht. destruct Ht as [j Hj].
      destruct (last_with_dec key tokens o) as [Hno | [i Hi]].
      + exact (Hno j t Hj Heq).
      + apply index_by_lookup in Hi. congruence.
    - intros Hno. rewrite index_by_absent; [apply lookup_empty|].
      intros j t Hj. apply Hno. eapply list_elem_of_lookup_2. exact Hj.
    - intros i Hi. apply index_by_lookup in Hi. exact (proj1 Hi). }
  split; [|split].
  - intros o. rewrite Hs, He.
    destruct (Hkeys start_of o) as [H1 H2]. destruct (Hkeys end_of o) as [H3 H4].
    repeat split; try apply H1; try apply H3; assumption.
  - intros x range includeComments Hrange Hno. unfold getTokenBefore.
    rewrite Hrange, Hs. rewrite (proj2 (proj1 (Hkeys start_of _)) Hno). reflexivity.
  - intros x range includeComments Hrange Hno. unfold getTokenAfter.
    rewrite Hrange, He. rewrite (proj2 (proj1 (Hkeys end_of _)) Hno). reflexivity.
Qed.

(** X3.  The token queries read the instance only: whatever methods are
    called in between, they return what they returned before.  This
    holds from any state of the instance. *)
Theorem token_queries_pure (this : JSONSourceCode) (calls : list Call)
  (x : NodeOrToken) (includeComments : bool) :
  getTokenBefore (run calls this) x includeComments = getTokenBefore this x includeComments
  /\ getTokenAfter (run calls this) x includeComments = getTokenAfter this x includeComments.
Proof.
  pose proof (run_document getText parseDirective parseJSONLikeConfig calls this) as Hdoc.
  split; symmetry.
  - apply getTokenBefore_same_document. exact Hdoc.
  - apply getTokenAfter_same_document. exact Hdoc.
Qed.

(** X4.  [getTokenBefore] returns a token [t] exactly in these cases:
    with comments included, [t] is the token just before the index the
    start-offset map gives; with comments excluded, [t] is the nearest
    token before that index that is no comment, every token in between
    being a comment. *)
Theorem getTokenBefore_nearest (txt : jsstring) (root : Node) (tokens : list Token)
  (calls : list Call) (x : NodeOrToken) (t : Token) :
  let this := run calls (new_JSONSourceCode txt (mkDocument root (Some tokens))) in
  (getTokenBefore this x true = Returned (Ref t) <->
   exists range, range_of x = Some range /\
   exists i, tokenStarts this !! fst range = Some (S i) /\ tokens !! i = Some t)
  /\
  (getTokenBefore this x false = Returned (Ref t) <->
   exists range, range_of x = Some range /\
   exists i j, tokenStarts this !! fst range = Some i /\ (j < i)%nat
     /\ tokens !! j = Some t /\ isCommentToken t = false
     /\ forall k t', (j < k < i)%nat -> tokens !! k = Some t' -> isCommentToken t' = true).
Proof.
  intros this.
  assert (Hix : indexed this) by apply run_indexed.
  assert (Hast : ast this = mkDocument root (Some tokens)) by apply run_ast.
  destruct (range_of x) as [range|] eqn:Hrange;
    [|unfold getTokenBefore; rewrite Hrange;
      split; (split; [discriminate | intros (? & Hd & _); discriminate Hd])].
  split; (etransitivity; [|symmetry; apply (given_range range)]); cbv beta.
  - pose proof (getTokenBefore_located this x range true Hix Hrange) as H.
    destruct (tokenStarts this !! fst range) as [[|p]|] eqn:Hlk.
    + rewrite H. split; [discriminate | intros (i & Hi & _); discriminate].
    + destruct H as (tokens' & Htok & Hp & Hget). rewrite Hast in Htok.
      injection Htok as <-. rewrite Hget.
      destruct (lookup_lt_is_Some_2 tokens p ltac:(lia)) as [tp Htp]. rewrite Htp. simpl.
      split.
      * intros Heq. injection Heq as <-. exists p. tauto.
      * intros (i & Hi & Hti). injection Hi as <-. congruence.
    + rewrite H. split; [discriminate | intros (i & Hi & _); discriminate].
  - pose proof (getTokenBefore_located this x range false Hix Hrange) as H.
    destruct (tokenStarts this !! fst range) as [[|p]|] eqn:Hlk.
    + rewrite H. split; [discriminate | intros (i & j & Hi & Hj & _)].
      injection Hi as <-. lia.
    + destruct H as (tokens' & Htok & Hp & Hget). rewrite Hast in Htok.
      injection Htok as <-. rewrite Hget.
      pose proof (skipCommentsBefore_spec tokens p ltac:(lia)) as Hspec.
      destruct (skipCommentsBefore tokens (tokens !! p) p) as [| |r]; [| contradiction |].
      * split; [discriminate|]. intros (i & j & Hi & Hj & Htj & Hnc & _).
        injection Hi as <-. rewrite (Hspec j t ltac:(lia) Htj) in Hnc. discriminate.
      * destruct Hspec as (Hr & j0 & Hj0 & Hl0 & Hbetween). split.
        -- intros Heq. injection Heq as <-.
           exists (S p), j0. repeat split; try assumption; try lia.
           intros k t' Hk. apply Hbetween. lia.
        -- intros (i & j & Hi & Hj & Htj & Hnc & Hall). injection Hi as <-.
           destruct (Nat.lt_trichotomy j j0) as [Hc | [Hc | Hc]].
           ++ rewrite (Hall j0 r ltac:(lia) Hl0) in Hr. discriminate.
           ++ subst j0. congruence.
           ++ rewrite (Hbetween j t ltac:(lia) Htj) in Hnc. discriminate.
    + rewrite H. split; [discriminate | intros (i & j & Hi & _); discriminate].
Qed.

(** X5.  [getTokenAfter] likewise: with comments included it returns
    the token just after the index the end-offset map gives, with
    comments excluded the nearest token after it that is no comment. *)
Theorem getTokenAfter_nearest (txt : jsstring) (root : Node) (tokens : list Token)
  (calls : list Call) (x : NodeOrToken) (t : Token) :
  let this := run calls (new_JSONSourceCode txt (mkDocument root (Some tokens))) in
  (getTokenAfter this x true = Returned (Ref t) <->
   exists range, range_of x = Some range /\
   exists i, tokenEnds this !! snd range = Some i /\ tokens !! S i = Some t)
  /\
  (getTokenAfter this x false = Returned (Ref t) <->
   exists range, range_of x = Some range /\
   exists i j, tokenEnds this !! snd range = Some i /\ (i < j)%nat
     /\ tokens !! j = Some t /\ isCommentToken t = false
     /\ forall k t', (i < k < j)%nat -> tokens !! k = Some t' -> isCommentToken t' = true).
Proof.
  intros this.
  assert (Hix : indexed this) by apply run_indexed.
  assert (Hast : ast this = mkDocument root (Some tokens)) by apply run_ast.
  destruct (range_of x) as [range|] eqn:Hrange;
    [|unfold getTokenAfter; rewrite Hrange;
      split; (split; [discriminate | intros (? & Hd & _); discriminate Hd])].
  split; (etransitivity; [|symmetry; apply (given_range range)]); cbv beta.
  - pose proof (getTokenAfter_located this x range true Hix Hrange) as H.
    destruct (tokenEnds this !! snd range) as [p|] eqn:Hlk.
    + destruct H as (tokens' & Htok & Hp & Hget). rewrite Hast in Htok.
      injection Htok as <-. rewrite Hget.
      destruct (length tokens <=? S p)%nat eqn:Hend.
      * apply Nat.leb_le in Hend. split; [discriminate|].
        intros (i & Hi & Hti). injection Hi as <-. apply lookup_lt_Some in Hti. lia.
      * apply Nat.leb_gt in Hend.
        destruct (lookup_lt_is_Some_2 tokens (S p) Hend) as [tn Htn]. rewrite Htn. simpl.
        split.
        -- intros Heq. injection Heq as <-. exists p. tauto.
        -- intros (i & Hi & Hti). injection Hi as <-. congruence.
    + rewrite H. split; [discriminate | intros (i & Hi & _); discriminate].
  - pose proof (getTokenAfter_located this x range false Hix Hrange) as H.
    destruct (tokenEnds this !! snd range) as [p|] eqn:Hlk.
    + destruct H as (tokens' & Htok & Hp & Hget). rewrite Hast in Htok.
      injection Htok as <-. rewrite Hget.
      destruct (length tokens <=? S p)%nat eqn:Hend.
      * apply Nat.leb_le in Hend. split; [discriminate|].
        intros (i & j & Hi & Hj & Htj & _). injection Hi as <-.
        apply lookup_lt_Some in Htj. lia.
      * apply Nat.leb_gt in Hend.
        pose proof (skipCommentsAfter_spec tokens _ (S p) eq_refl Hend) as Hspec.
        destruct (skipCommentsAfter tokens (tokens !! S p) (S p)) as [| |r]; [| contradiction |].
        -- split; [discriminate|]. intros (i & j & Hi & Hj & Htj & Hnc & _).
           injection Hi as <-. rewrite (Hspec j t ltac:(lia) Htj) in Hnc. discriminate.
        -- destruct Hspec as (Hr & j0 & Hj0 & Hl0 & Hbetween). split.
           ++ intros Heq. injection Heq as <-.
              exists p, j0. repeat split; try assumption; try lia.
           ++ intros (i & j & Hi & Hj & Htj & Hnc & Hall). injection Hi as <-.
              destruct (Nat.lt_trichotomy j j0) as [Hc | [Hc | Hc]].
              ** rewrite (Hbetween j t ltac:(lia) Htj) in Hnc. discriminate.
              ** subst j0. congruence.
              ** rewrite (Hall j0 r ltac:(lia) Hl0) in Hr. discriminate.
    + rewrite H. split; [discriminate | intros (i & j & Hi & _); discriminate].
Qed.

(** X6.  When no two tokens start at the same offset and no two end at
    the same offset, the two queries with comments included are inverse
    to each other on neighbours: the token after [tokens[i]] is
    [tokens[i+1]], and the token before [tokens[i+1]] is [tokens[i]]. *)
Theorem neighbours_round_trip (txt : jsstring) (root : Node) (tokens : list Token)
  (calls : list Call) (i : nat) (t t' : Token) :
  NoDup (start_of <$> tokens) -> NoDup (end_of <$> tokens) ->
  tokens !! i = Some t -> tokens !! S i = Some t' ->
  let this := run calls (new_JSONSourceCode txt (mkDocument root (Some tokens))) in
  getTokenAfter this (AToken t) true = Returned (Ref t')
  /\ getTokenBefore this (AToken t') true = Returned (Ref t).
Proof.
  intros Hstarts Hends Hi Hi' this.
  assert (Hast : ast this = mkDocument root (Some tokens)) by apply run_ast.
  pose proof (token_located getText parseDirective parseJSONLikeConfig
                txt (mkDocument root (Some tokens)) calls tokens i t eq_refl Hi) as [_ He].
  pose proof (token_located getText parseDirective parseJSONLikeConfig
                txt (mkDocument root (Some tokens)) calls tokens (S i) t' eq_refl Hi') as [Hs _].
  fold this in He, Hs.
  split.
  - unfold getTokenAfter. cbn [range_of]. rewrite He.
    + rewrite Hast. simpl.
      assert (Hlt : (S i < length tokens)%nat) by (eapply lookup_lt_Some; exact Hi').
      apply Nat.leb_gt in Hlt. rewrite Hlt, Hi'. reflexivity.
    + exact (proj2 (NoDup_last_with end_of tokens i t Hends Hi)).
  - unfold getTokenBefore. cbn [range_of]. rewrite Hs.
    + rewrite Hast. simpl. rewrite Hi. reflexivity.
    + exact (proj2 (NoDup_last_with start_of tokens (S i) t' Hstarts Hi')).
Qed.

End TokenProperties.

(** ** The inline configuration comments *)

Lemma slice_from_2 (a body : jsstring) :
  length a = 2%nat -> slice (a ++ body) 2 None = body.
Proof.
  intros Ha. unfold slice, clamp_index. rewrite length_app, Ha.
  replace (Z.of_nat (2 + length body)) with (2 + Z.of_nat (length body)) by lia.
  destruct (2 <? 0) eqn:H0; [apply Z.ltb_lt in H0; lia|].
  rewrite Z.min_l by lia.
  destruct (2 + Z.of_nat (length body) <=? 2) eqn:Hle.
  - apply Z.leb_le in Hle. destruct body; [reflexivity | simpl in Hle; lia].
  - replace (Z.to_nat 2) with (length a) by lia. rewrite drop_app_length.
    apply take_ge. lia.
Qed.

Lemma slice_2_to_minus_2 (a body b : jsstring) :
  length a = 2%nat -> length b = 2%nat -> slice (a ++ body ++ b) 2 (Some (-2)) = body.
Proof.
  intros Ha Hb. unfold slice, clamp_index. rewrite !length_app, Ha, Hb.
  replace (Z.of_nat (2 + (length body + 2))) with (Z.of_nat (length body) + 4) by lia.
  destruct (2 <? 0) eqn:H0; [apply Z.ltb_lt in H0; lia|].
  destruct (-2 <? 0) eqn:H1; [|apply Z.ltb_ge in H1; lia].
  rewrite Z.min_l, Z.max_l by lia.
  destruct (Z.of_nat (length body) + 4 + -2 <=? 2) eqn:Hle.
  - apply Z.leb_le in Hle. destruct body; [reflexivity | simpl in Hle; lia].
  - replace (Z.to_nat 2) with (length a) by lia. rewrite drop_app_length.
    replace (Z.to_nat (Z.of_nat (length body) + 4 + -2 - 2)) with (length body) by lia.
    apply take_app_length.
Qed.

Lemma strip_prefix_Some prefix : forall s rest,
  strip_prefix prefix s = Some rest <-> s = prefix ++ rest.
Proof.
  induction prefix as [|p prefix IH]; intros s rest; simpl.
  - split; [intros H; injection H as ->; reflexivity | intros ->; reflexivity].
  - destruct s as [|c s]; [split; discriminate|].
    destruct (N.eqb p c) eqn:Hpc.
    + apply N.eqb_eq in Hpc. subst c. rewrite IH. split; [intros ->; reflexivity|].
      intros H. injection H as ->. reflexivity.
    + apply N.eqb_neq in Hpc. split; [discriminate|]. intros H. injection H as -> _.
      contradiction.
Qed.

Lemma then_true literal k s :
  then_ literal k s = true <-> exists rest, s = js literal ++ rest /\ k rest = true.
Proof.
  unfold then_. destruct (strip_prefix (js literal) s) as [rest|] eqn:Hs.
  - apply strip_prefix_Some in Hs. split.
    + intros Hk. exists rest. tauto.
    + intros (rest' & Heq & Hk). rewrite Hs in Heq. apply app_inv_head in Heq. congruence.
  - split; [discriminate|]. intros (rest & Heq & _).
    apply strip_prefix_Some in Heq. congruence.
Qed.

Lemma then_app literal k rest : then_ literal k (js literal ++ rest) = k rest.
Proof.
  unfold then_. rewrite (proj2 (strip_prefix_Some (js literal) _ rest) eq_refl). reflexivity.
Qed.

(** X7.  The INLINE_CONFIG pattern accepts a text exactly when, after
    its leading white space, it starts with one of the five labels
    [eslint], [eslint-disable], [eslint-enable],
    [eslint-disable-next-line], [eslint-disable-line], and the label is
    followed by white space or ends the text. *)
Theorem INLINE_CONFIG_labels (s : jsstring) :
  INLINE_CONFIG_test s = true <->
  exists l rest, l ∈ inline_config_labels
                 /\ skip_spaces s = l ++ rest /\ space_or_end rest = true.
Proof.
  unfold INLINE_CONFIG_test, optional. split.
  - intros H. apply then_true in H. destruct H as (r0 & Hs & H).
    rewrite Hs. apply orb_true_iff in H. destruct H as [H | H].
    + apply orb_true_iff in H. destruct H as [H | H].
      * apply then_true in H. destruct H as (r1 & -> & H).
        exists (js "eslint-enable"), r1. split; [do 2 right; left|]. tauto.
      * apply then_true in H. destruct H as (r1 & -> & H).
        apply orb_true_iff in H. destruct H as [H | H].
        -- apply orb_true_iff in H. destruct H as [H | H].
           ++ apply then_true in H. destruct H as (r2 & -> & H).
              apply then_true in H. destruct H as (r3 & -> & H).
              exists (js "eslint-disable-next-line"), r3.
              split; [do 3 right; left|]. tauto.
           ++ apply then_true in H. destruct H as (r3 & -> & H).
              exists (js "eslint-disable-line"), r3. split; [do 4 right; left|]. tauto.
        -- exists (js "eslint-disable"), r1. split; [right; left|]. tauto.
    + exists (js "eslint"), r0. split; [left|]. tauto.
  - intros (l & rest & Hl & -> & Hrest).
    unfold inline_config_labels, directive_labels in Hl.
    rewrite !elem_of_cons, elem_of_nil in Hl.
    destruct Hl as [-> | [-> | [-> | [-> | [-> | []]]]]].
    + rewrite then_app. cbv beta. rewrite Hrest. apply orb_true_r.
    + change (js "eslint-disable") with (js "eslint" ++ js "-disable").
      rewrite <- app_assoc, then_app. cbv beta. rewrite then_app. cbv beta.
      rewrite Hrest, !orb_true_r. reflexivity.
    + change (js "eslint-enable") with (js "eslint" ++ js "-enable").
      rewrite <- app_assoc, then_app. cbv beta. rewrite then_app, Hrest. reflexivity.
    + change (js "eslint-disable-next-line")
        with (js "eslint" ++ js "-disable" ++ js "-next" ++ js "-line").
      rewrite <- !app_assoc, then_app. cbv beta. rewrite then_app. cbv beta.
      rewrite !then_app, Hrest. rewrite !orb_true_r. reflexivity.
    + change (js "eslint-disable-line") with (js "eslint" ++ js "-disable" ++ js "-line").
      rewrite <- !app_assoc, then_app. cbv beta. rewrite then_app. cbv beta.
      rewrite then_app, Hrest. rewrite !orb_true_r. reflexivity.
Qed.

Section CommentValues.

Variable getText : jsstring -> Token -> jsstring.

Local Abbreviation getCommentValue := (getCommentValue getText).
Local Abbreviation getInlineConfigNodes := (getInlineConfigNodes getText).
Local Abbreviation comment_matches := (comment_matches getText).

(** X8.  The value of a comment is its text without the delimiters: of
    a line comment whose text is two code units ([//]) and a body, the
    body; of a block comment whose text is two code units, a body and
    two code units ([/*] and [*/]), the body. *)
Theorem comment_value_strips_delimiters (this : JSONSourceCode) (comment : Token)
  (opening body closing : jsstring) :
  length opening = 2%nat -> length closing = 2%nat ->
  (tok_type comment = js "LineComment" ->
   getText (text this) comment = opening ++ body ->
   getCommentValue this comment = Returned body)
  /\ (tok_type comment = js "BlockComment" ->
      getText (text this) comment = opening ++ body ++ closing ->
      getCommentValue this comment = Returned body).
Proof.
  intros Ho Hc. unfold getCommentValue. split; intros Hty Htext; rewrite Hty, Htext; simpl.
  - rewrite (slice_from_2 opening body Ho). reflexivity.
  - rewrite (slice_2_to_minus_2 opening body closing Ho Hc). reflexivity.
Qed.

Lemma getCommentValue_known this c :
  line_or_block c -> exists v, getCommentValue this c = Returned v.
Proof.
  intros [Hty | Hty]; unfold getCommentValue; rewrite Hty; simpl; eauto.
Qed.

Lemma getCommentValue_unknown this c :
  ~ line_or_block c -> getCommentValue this c = Threw (unexpected_comment_type c).
Proof.
  intros Hno. unfold getCommentValue, line_or_block in *.
  destruct (decide (tok_type c = js "LineComment")); [tauto|].
  destruct (decide (tok_type c = js "BlockComment")); [tauto|]. reflexivity.
Qed.

Lemma filterM_known this comments :
  Forall line_or_block comments ->
  filterM (fun comment => v ← getCommentValue this comment; Returned (INLINE_CONFIG_test v))
          comments
  = Returned (List.filter (comment_matches this) comments).
Proof.
  induction 1 as [|c comments Hc _ IH]; [reflexivity|].
  simpl. rewrite IH. unfold comment_matches.
  destruct (getCommentValue_known this c Hc) as [v Hv]. rewrite Hv. simpl.
  destruct (INLINE_CONFIG_test v); reflexivity.
Qed.

Lemma filterM_unknown this before c after :
  Forall line_or_block before -> ~ line_or_block c ->
  filterM (fun comment => v ← getCommentValue this comment; Returned (INLINE_CONFIG_test v))
          (before ++ c :: after)
  = Threw (unexpected_comment_type c).
Proof.
  intros Hb Hc. induction Hb as [|b before Hb _ IH]; simpl.
  - rewrite (getCommentValue_unknown this c Hc). reflexivity.
  - destruct (getCommentValue_known this b Hb) as [v Hv]. rewrite Hv. simpl.
    rewrite IH. reflexivity.
Qed.

(** X9.  On an instance that has not cached them yet and whose comments
    are all line or block comments, [getInlineConfigNodes] returns the
    comments whose value matches the INLINE_CONFIG pattern, in the order
    of the comment list, and caches that array. *)
Theorem getInlineConfigNodes_filter (this : JSONSourceCode) :
  inlineConfigComments this = None ->
  Forall line_or_block (comments this) ->
  fst (getInlineConfigNodes this)
  = Returned (List.filter (comment_matches this) (comments this))
  /\ inlineConfigComments (snd (getInlineConfigNodes this))
     = Some (List.filter (comment_matches this) (comments this)).
Proof.
  intros Hnone Hall. unfold getInlineConfigNodes.
  rewrite Hnone, (filterM_known this _ Hall). split; reflexivity.
Qed.

End CommentValues.

Section CommentMethods.

Variable getText : jsstring -> Token -> jsstring.
Variable parseDirective : jsstring -> option DirectiveComment.
Variable parseJSONLikeConfig : jsstring -> ParseResult.

Local Abbreviation exec := (exec getText parseDirective parseJSONLikeConfig).
Local Abbreviation run := (run getText parseDirective parseJSONLikeConfig).
Local Abbreviation getCommentValue := (getCommentValue getText).
Local Abbreviation getInlineConfigNodes := (getInlineConfigNodes getText).
Local Abbreviation parsed_directive := (parsed_directive getText parseDirective).
Local Abbreviation disableDirectives_callback :=
  (disableDirectives_callback getText parseDirective).
Local Abbreviation getDisableDirectives := (getDisableDirectives getText parseDirective).
Local Abbreviation applyInlineConfig_callback :=
  (applyInlineConfig_callback getText parseDirective parseJSONLikeConfig).
Local Abbreviation applyInlineConfig :=
  (applyInlineConfig getText parseDirective parseJSONLikeConfig).

Lemma getDisableDirectives_throws this e :
  fst (getInlineConfigNodes this) = Threw e -> fst (getDisableDirectives this) = Threw e.
Proof.
  intros H. unfold getDisableDirectives.
  destruct (getInlineConfigNodes this) as [[nodes|e'] this']; simpl in *; congruence.
Qed.

Lemma applyInlineConfig_throws this e :
  fst (getInlineConfigNodes this) = Threw e -> fst (applyInlineConfig this) = Threw e.
Proof.
  intros H. unfold applyInlineConfig.
  destruct (getInlineConfigNodes this) as [[nodes|e'] this']; simpl in *; congruence.
Qed.

Lemma getDisableDirectives_snd this :
  snd (getDisableDirectives this) = snd (getInlineConfigNodes this).
Proof.
  unfold getDisableDirectives.
  destruct (getInlineConfigNodes this) as [[nodes|e'] this']; reflexivity.
Qed.

Lemma applyInlineConfig_snd this :
  snd (applyInlineConfig this) = snd (getInlineConfigNodes this).
Proof.
  unfold applyInlineConfig.
  destruct (getInlineConfigNodes this) as [[nodes|e'] this']; reflexivity.
Qed.

(** X10.  A comment whose type ends in [Comment] but is neither
    [LineComment] nor [BlockComment] makes the three comment methods
    throw [Unexpected comment type '...'] for the first such comment of
    the list; nothing is cached, so the instance is left as it was and
    the next call throws again. *)
Theorem unexpected_comment_type_throws (this : JSONSourceCode)
  (before : list Token) (c : Token) (after : list Token) :
  inlineConfigComments this = None ->
  comments this = before ++ c :: after ->
  Forall line_or_block before -> ~ line_or_block c ->
  getInlineConfigNodes this = (Threw (unexpected_comment_type c), this)
  /\ getDisableDirectives this = (Threw (unexpected_comment_type c), this)
  /\ applyInlineConfig this = (Threw (unexpected_comment_type c), this).
Proof.
  intros Hnone Hcomments Hb Hc.
  assert (H : getInlineConfigNodes this = (Threw (unexpected_comment_type c), this)).
  { unfold getInlineConfigNodes.
    rewrite Hnone, Hcomments, (filterM_unknown getText this before c after Hb Hc).
    reflexivity. }
  split; [exact H|]. split.
  - unfold getDisableDirectives. rewrite H. reflexivity.
  - unfold applyInlineConfig. rewrite H. reflexivity.
Qed.

Lemma filterM_ext {A : Type} (f g : A -> outcome bool) (l : list A) :
  (forall a, f a = g a) -> filterM f l = filterM g l.
Proof.
  intros Hfg. induction l as [|a l IH]; simpl; [reflexivity|]. rewrite Hfg, IH. reflexivity.
Qed.

(** [getInlineConfigNodes] reads the cache, the comment list and the
    text only. *)
Lemma getInlineConfigNodes_congr a b :
  inlineConfigComments a = inlineConfigComments b ->
  comments a = comments b -> text a = text b ->
  fst (getInlineConfigNodes a) = fst (getInlineConfigNodes b).
Proof.
  intros Hcache Hc Ht. unfold getInlineConfigNodes. rewrite Hcache, Hc.
  destruct (inlineConfigComments b); [reflexivity|].
  rewrite (filterM_ext _ (fun comment =>
             v ← getCommentValue b comment; Returned (INLINE_CONFIG_test v))).
  - destruct (filterM _ (comments b)); reflexivity.
  - intros c. rewrite (getCommentValue_text getText a b c Ht). reflexivity.
Qed.

Lemma getInlineConfigNodes_again this :
  fst (getInlineConfigNodes (snd (getInlineConfigNodes this)))
  = fst (getInlineConfigNodes this).
Proof.
  unfold getInlineConfigNodes at 2 3.
  destruct (inlineConfigComments this) as [cached|] eqn:Hcache; simpl.
  - unfold getInlineConfigNodes. rewrite Hcache. reflexivity.
  - destruct (filterM _ (comments this)) as [found|e] eqn:Hf; simpl.
    + reflexivity.
    + unfold getInlineConfigNodes. rewrite Hcache, Hf. reflexivity.
Qed.

Lemma traverse_inline_cache this :
  inlineConfigComments (snd (traverse this)) = inlineConfigComments this.
Proof.
  unfold traverse. destruct (steps this); [reflexivity|].
  destruct (fold_left _ _ _). reflexivity.
Qed.

Lemma exec_inline_config_nodes this c :
  fst (getInlineConfigNodes (exec this c)) = fst (getInlineConfigNodes this).
Proof.
  destruct c; simpl; try reflexivity.
  - destruct (traverse_document this) as (_ & Ht & Hc & _).
    apply getInlineConfigNodes_congr;
      [apply traverse_inline_cache | symmetry; exact Hc | symmetry; exact Ht].
  - apply getInlineConfigNodes_again.
  - rewrite getDisableDirectives_snd. apply getInlineConfigNodes_again.
  - rewrite applyInlineConfig_snd. apply getInlineConfigNodes_again.
Qed.

Lemma run_inline_config_nodes calls : forall this,
  fst (getInlineConfigNodes (run calls this)) = fst (getInlineConfigNodes this).
Proof.
  induction calls as [|c calls IH]; intros this; simpl; [reflexivity|].
  rewrite IH. apply exec_inline_config_nodes.
Qed.

Lemma getDisableDirectives_of_nodes this :
  fst (getDisableDirectives this)
  = match fst (getInlineConfigNodes this) with
    | Returned nodes =>
        forEach (disableDirectives_callback this) nodes (mkDisableDirectives [] [])
    | Threw e => Threw e
    end.
Proof.
  destruct (fst (getInlineConfigNodes this)) as [nodes|e] eqn:H.
  - apply (getDisableDirectives_forEach getText parseDirective). exact H.
  - apply getDisableDirectives_throws. exact H.
Qed.

Lemma applyInlineConfig_of_nodes this :
  fst (applyInlineConfig this)
  = match fst (getInlineConfigNodes this) with
    | Returned nodes =>
        forEach (applyInlineConfig_callback this) nodes (mkInlineConfig [] [])
    | Threw e => Threw e
    end.
Proof.
  destruct (fst (getInlineConfigNodes this)) as [nodes|e] eqn:H.
  - apply (applyInlineConfig_forEach getText parseDirective parseJSONLikeConfig). exact H.
  - apply applyInlineConfig_throws. exact H.
Qed.

(** X11.  What the three comment methods return does not depend on
    what was called before: each call builds its arrays anew from the
    same comments, so nothing accumulates from call to call and no other
    method disturbs them.  This holds from any state of the instance. *)
Theorem comment_methods_stable (this : JSONSourceCode) (calls : list Call) :
  fst (getInlineConfigNodes (run calls this)) = fst (getInlineConfigNodes this)
  /\ fst (getDisableDirectives (run calls this)) = fst (getDisableDirectives this)
  /\ fst (applyInlineConfig (run calls this)) = fst (applyInlineConfig this).
Proof.
  pose proof (run_inline_config_nodes calls this) as Hnodes.
  destruct (run_document getText parseDirective parseJSONLikeConfig calls this)
    as (_ & Ht & _).
  split; [exact Hnodes|]. split.
  - rewrite !getDisableDirectives_of_nodes, Hnodes.
    destruct (fst (getInlineConfigNodes this)) as [nodes|e]; [|reflexivity].
    apply forEach_ext. intros s a. unfold disableDirectives_callback.
    rewrite (getCommentValue_text getText (run calls this) this a (eq_sym Ht)). reflexivity.
  - rewrite !applyInlineConfig_of_nodes, Hnodes.
    destruct (fst (getInlineConfigNodes this)) as [nodes|e]; [|reflexivity].
    apply forEach_ext. intros s a. unfold applyInlineConfig_callback.
    rewrite (getCommentValue_text getText (run calls this) this a (eq_sym Ht)). reflexivity.
Qed.

Lemma directive_of_cases d c :
  (label d = js "eslint-disable-line"
   /\ line (loc_start (tok_loc c)) <> line (loc_end (tok_loc c))
   /\ directive_of d c = mkDisableDirectives [problem_at multiline_message c] [])
  \/ (label d ∈ directive_labels
      /\ directive_of d c
         = mkDisableDirectives []
             [mkDirective (slice (label d) 7 None) c (value d) (justification d)])
  \/ directive_of d c = mkDisableDirectives [] [].
Proof.
  unfold directive_of.
  destruct (bool_decide (label d = js "eslint-disable-line")) eqn:Hdl; simpl.
  - apply bool_decide_eq_true in Hdl.
    destruct (line (loc_start (tok_loc c)) =? line (loc_end (tok_loc c))) eqn:Hline; simpl.
    + right. rewrite bool_decide_eq_true_2; [left; split; [|reflexivity]|];
        rewrite Hdl; do 3 right; left.
    + left. apply Z.eqb_neq in Hline. rewrite Hdl. repeat split; assumption.
  - destruct (bool_decide (label d ∈ directive_labels)) eqn:Hl.
    + apply bool_decide_eq_true in Hl. right; left. tauto.
    + right; right. reflexivity.
Qed.

Lemma directive_type_of_label l :
  l ∈ directive_labels ->
  slice l 7 None ∈ directive_types /\ l = js "eslint-" ++ slice l 7 None.
Proof.
  unfold directive_labels. rewrite !elem_of_cons, elem_of_nil.
  intros [-> | [-> | [-> | [-> | []]]]]; split; try reflexivity.
  - left.
  - right; left.
  - do 2 right; left.
  - do 3 right; left.
Qed.

Lemma disableDirectives_forEach_cons this c nodes r :
  forEach (disableDirectives_callback this) (c :: nodes) (mkDisableDirectives [] [])
  = Returned r ->
  exists d r', parsed_directive this c = Returned d
    /\ forEach (disableDirectives_callback this) nodes (mkDisableDirectives [] []) = Returned r'
    /\ r = dd_append (directive_of d c) r'.
Proof.
  simpl. rewrite (disableDirectives_callback_pushes getText parseDirective).
  destruct (parsed_directive this c) as [d|e]; simpl; [|discriminate].
  rewrite (disableDirectives_forEach_appends getText parseDirective).
  destruct (forEach _ nodes (mkDisableDirectives [] [])) as [r'|e]; simpl; [|discriminate].
  intros H. injection H as <-. exists d, r'. rewrite dd_append_empty_l. tauto.
Qed.

Lemma disableDirectives_forEach_output this : forall nodes r,
  forEach (disableDirectives_callback this) nodes (mkDisableDirectives [] []) = Returned r ->
  (dir_node <$> dd_directives r) `sublist_of` nodes
  /\ Forall (fun dv =>
               dir_type dv ∈ directive_types
               /\ exists d, parsed_directive this (dir_node dv) = Returned d
                            /\ label d = js "eslint-" ++ dir_type dv
                            /\ dir_value dv = value d
                            /\ dir_justification dv = justification d)
            (dd_directives r)
  /\ Forall (fun p =>
               exists c, c ∈ nodes
                         /\ line (loc_start (tok_loc c)) <> line (loc_end (tok_loc c))
                         /\ p = problem_at multiline_message c)
            (dd_problems r)
  /\ (length (dd_directives r) + length (dd_problems r) <= length nodes)%nat.
Proof.
  induction nodes as [|c nodes IH]; intros r Hr.
  - simpl in Hr. injection Hr as <-. simpl.
    split; [constructor|]. split; [constructor|]. split; [constructor | lia].
  - apply disableDirectives_forEach_cons in Hr. destruct Hr as (d & r' & Hd & Hr' & ->).
    destruct (IH r' Hr') as (Hsub & Hdirs & Hprobs & Hlen).
    assert (Hprobs' : Forall (fun p =>
               exists c0, c0 ∈ c :: nodes
                         /\ line (loc_start (tok_loc c0)) <> line (loc_end (tok_loc c0))
                         /\ p = problem_at multiline_message c0) (dd_problems r')).
    { eapply Forall_impl; [exact Hprobs|]. intros p (c0 & Hc0 & H). exists c0.
      split; [right; exact Hc0 | exact H]. }
    destruct (directive_of_cases d c) as [(Hl & Hline & ->) | [(Hl & ->) | ->]]; simpl.
    + split; [apply sublist_cons; exact Hsub|]. split; [exact Hdirs|].
      split; [|lia]. constructor; [|exact Hprobs']. exists c. split; [left | tauto].
    + split; [apply sublist_skip; exact Hsub|]. split; [|split; [exact Hprobs' | lia]].
      constructor; [|exact Hdirs]. simpl.
      destruct (directive_type_of_label _ Hl) as [Hty Heq].
      split; [exact Hty|]. exists d. tauto.
    + split; [apply sublist_cons; exact Hsub|]. split; [exact Hdirs|].
      split; [exact Hprobs' | lia].
Qed.

(** X12.  Whatever [getDisableDirectives] returns: the nodes of the
    directives are inline configuration comments, in the order of those
    comments and at most one directive per comment; every directive has
    one of the types [disable], [enable], [disable-next-line],
    [disable-line] and carries the value and justification parsed from
    its comment, whose label is [eslint-] followed by the type; every
    problem is the one about a comment spanning several lines, located
    at such a comment; and directives and problems together are no more
    than the comments. *)
Theorem getDisableDirectives_output (this : JSONSourceCode) (nodes : list Token)
  (r : DisableDirectives) :
  fst (getInlineConfigNodes this) = Returned nodes ->
  fst (getDisableDirectives this) = Returned r ->
  (dir_node <$> dd_directives r) `sublist_of` nodes
  /\ Forall (fun dv =>
               dir_type dv ∈ directive_types
               /\ exists d, parsed_directive this (dir_node dv) = Returned d
                            /\ label d = js "eslint-" ++ dir_type dv
                            /\ dir_value dv = value d
                            /\ dir_justification dv = justification d)
            (dd_directives r)
  /\ Forall (fun p =>
               exists c, c ∈ nodes
                         /\ line (loc_start (tok_loc c)) <> line (loc_end (tok_loc c))
                         /\ p = problem_at multiline_message c)
            (dd_problems r)
  /\ (length (dd_directives r) + length (dd_problems r) <= length nodes)%nat.
Proof.
  intros Hnodes Hr. rewrite getDisableDirectives_of_nodes, Hnodes in Hr.
  apply disableDirectives_forEach_output. exact Hr.
Qed.

Lemma applyInlineConfig_forEach_cons this c nodes r :
  forEach (applyInlineConfig_callback this) (c :: nodes) (mkInlineConfig [] []) = Returned r ->
  exists d r', parsed_directive this c = Returned d
    /\ forEach (applyInlineConfig_callback this) nodes (mkInlineConfig [] []) = Returned r'
    /\ r = ic_append (config_of parseJSONLikeConfig d c) r'.
Proof.
  simpl. rewrite (applyInlineConfig_callback_pushes getText parseDirective parseJSONLikeConfig).
  destruct (parsed_directive this c) as [d|e]; simpl; [|discriminate].
  rewrite (applyInlineConfig_forEach_appends getText parseDirective parseJSONLikeConfig).
  destruct (forEach _ nodes (mkInlineConfig [] [])) as [r'|e]; simpl; [|discriminate].
  intros H. injection H as <-. exists d, r'. rewrite ic_append_empty_l. tauto.
Qed.

Lemma applyInlineConfig_forEach_output this : forall nodes r,
  forEach (applyInlineConfig_callback this) nodes (mkInlineConfig [] []) = Returned r ->
  Forall (fun e =>
            exists c d rules, c ∈ nodes /\ parsed_directive this c = Returned d
              /\ label d = js "eslint" /\ parseJSONLikeConfig (value d) = ParseOk rules
              /\ e = config_at rules c)
         (ic_configs r)
  /\ Forall (fun p =>
               exists c d message, c ∈ nodes /\ parsed_directive this c = Returned d
                 /\ label d = js "eslint"
                 /\ parseJSONLikeConfig (value d) = ParseFailed message
                 /\ p = problem_at message c)
            (ic_problems r)
  /\ (length (ic_configs r) + length (ic_problems r) <= length nodes)%nat.
Proof.
  induction nodes as [|c nodes IH]; intros r Hr.
  - simpl in Hr. injection Hr as <-. simpl. split; [constructor|]. split; [constructor | lia].
  - apply applyInlineConfig_forEach_cons in Hr. destruct Hr as (d & r' & Hd & Hr' & ->).
    destruct (IH r' Hr') as (Hcfg & Hprobs & Hlen).
    assert (Hcfg' : Forall (fun e =>
              exists c0 d0 rules, c0 ∈ c :: nodes /\ parsed_directive this c0 = Returned d0
                /\ label d0 = js "eslint" /\ parseJSONLikeConfig (value d0) = ParseOk rules
                /\ e = config_at rules c0) (ic_configs r')).
    { eapply Forall_impl; [exact Hcfg|]. intros e (c0 & d0 & rules & Hc0 & H).
      exists c0, d0, rules. split; [right; exact Hc0 | exact H]. }
    assert (Hprobs' : Forall (fun p =>
              exists c0 d0 message, c0 ∈ c :: nodes /\ parsed_directive this c0 = Returned d0
                /\ label d0 = js "eslint"
                /\ parseJSONLikeConfig (value d0) = ParseFailed message
                /\ p = problem_at message c0) (ic_problems r')).
    { eapply Forall_impl; [exact Hprobs|]. intros p (c0 & d0 & message & Hc0 & H).
      exists c0, d0, message. split; [right; exact Hc0 | exact H]. }
    unfold config_of.
    destruct (bool_decide (label d = js "eslint")) eqn:Hl.
    + apply bool_decide_eq_true in Hl.
      destruct (parseJSONLikeConfig (value d)) as [rules|message] eqn:Hp; simpl.
      * split; [|split; [exact Hprobs' | lia]].
        constructor; [|exact Hcfg']. exists c, d, rules. split; [left | tauto].
      * split; [exact Hcfg'|]. split; [|lia].
        constructor; [|exact Hprobs']. exists c, d, message. split; [left | tauto].
    + simpl. split; [exact Hcfg'|]. split; [exact Hprobs' | lia].
Qed.

(** X13.  Whatever [applyInlineConfig] returns: every entry is
    [{ config: { rules }, loc }] for an inline configuration comment
    with label [eslint] whose value the parser accepted, with the rules
    it gave; every problem has [ruleId] [null] and is located at an
    [eslint] comment whose value the parser rejected, with its message;
    entries and problems together are no more than the comments; and
    without any [eslint] comment both arrays are empty. *)
Theorem applyInlineConfig_output (this : JSONSourceCode) (nodes : list Token)
  (r : InlineConfig) :
  fst (getInlineConfigNodes this) = Returned nodes ->
  fst (applyInlineConfig this) = Returned r ->
  Forall (fun e =>
            exists c d rules, c ∈ nodes /\ parsed_directive this c = Returned d
              /\ label d = js "eslint" /\ parseJSONLikeConfig (value d) = ParseOk rules
              /\ e = config_at rules c)
         (ic_configs r)
  /\ Forall (fun p =>
               exists c d message, c ∈ nodes /\ parsed_directive this c = Returned d
                 /\ label d = js "eslint"
                 /\ parseJSONLikeConfig (value d) = ParseFailed message
                 /\ p = problem_at message c)
            (ic_problems r)
  /\ (length (ic_configs r) + length (ic_problems r) <= length nodes)%nat
  /\ ((forall c d, c ∈ nodes -> parsed_directive this c = Returned d ->
                   label d <> js "eslint") ->
      r = mkInlineConfig [] []).
Proof.
  intros Hnodes Hr. rewrite applyInlineConfig_of_nodes, Hnodes in Hr.
  destruct (applyInlineConfig_forEach_output this nodes r Hr) as (Hcfg & Hprobs & Hlen).
  split; [exact Hcfg|]. split; [exact Hprobs|]. split; [exact Hlen|].
  intros Hno. destruct r as [configs problems]. simpl in *.
  destruct configs as [|e configs].
  - destruct problems as [|p problems]; [reflexivity|].
    apply Forall_cons in Hprobs. destruct Hprobs as [(c & d & m & Hc & Hd & Hl & _) _].
    exfalso. exact (Hno c d Hc Hd Hl).
  - apply Forall_cons in Hcfg. destruct Hcfg as [(c & d & m & Hc & Hd & Hl & _) _].
    exfalso. exact (Hno c d Hc Hd Hl).
Qed.

End CommentMethods.

(** ** Steps and parents *)

Lemma visitNode_nodes root parent it :
  it ∈ visitNode parent root -> it_node it ∈ nodes_of root.
Proof.
  intros Hit. destruct (visitNode_items root parent it Hit) as [[-> _] | (p & _ & Hp & Hch)].
  - apply nodes_of_self.
  - apply (nodes_of_trans _ p); [apply nodes_of_child; exact Hch | exact Hp].
Qed.

(** In a tree of distinct nodes, all items yielded for a node carry the
    same parent. *)
Lemma visitNode_one_parent root n :
  distinct_nodes root -> n ∈ nodes_of root ->
  exists parent, forall it,
    it ∈ visitNode None root -> node_id (it_node it) = node_id n -> it_parent it = parent.
Proof.
  intros Hd Hn.
  destruct (walk_subtree n root None Hn) as (before & after & parent & Hw).
  exists parent. intros it Hit Hid.
  assert (Hs : step_of it ∈ walk None root) by (apply list_elem_of_fmap_2; exact Hit).
  pose proof (only_step root (step_of it) Hd Hs) as Honly.
  assert (Hin : forall x, x ∈ walk parent n -> x ∈ walk None root).
  { intros x Hx. rewrite Hw. apply elem_of_app. right. apply elem_of_app. left. exact Hx. }
  assert (Hsame : forall x, x ∈ walk None root ->
            node_id (target x) = node_id n -> phase x = phase (step_of it) ->
            x = step_of it).
  { intros x Hx Hxid Hxph.
    assert (Hf : x ∈ filter (step_for (target (step_of it)) (phase (step_of it)))
                        (walk None root)).
    { apply list_elem_of_filter. split; [|exact Hx]. split; [|exact Hxph].
      change (node_id (target x) = node_id (it_node it)). congruence. }
    rewrite Honly in Hf. apply list_elem_of_singleton in Hf. exact Hf. }
  destruct (step_of_phase it) as [Hph | Hph].
  - assert (Heq : enter_step parent n = step_of it).
    { apply Hsame; [apply Hin; rewrite walk_eq; left | reflexivity | rewrite Hph; reflexivity]. }
    apply (f_equal (fun s => snd (args s))) in Heq. simpl in Heq. congruence.
  - assert (Heq : exit_step parent n = step_of it).
    { apply Hsame; [apply Hin; rewrite walk_eq; right; apply elem_of_app; right; left
                   | reflexivity | rewrite Hph; reflexivity]. }
    apply (f_equal (fun s => snd (args s))) in Heq. simpl in Heq. congruence.
Qed.

Section StepsAndParents.

Variable getText : jsstring -> Token -> jsstring.
Variable parseDirective : jsstring -> option DirectiveComment.
Variable parseJSONLikeConfig : jsstring -> ParseResult.

Local Abbreviation run := (run getText parseDirective parseJSONLikeConfig).

(** X14.  With momoa's iterator as modelled and a tree of distinct
    nodes: once [traverse] has been called, [getParent] of the target
    of any step is the parent the step carries in its [args], and the
    first element of [args] is the target.  In particular [getParent]
    of the root stays [undefined]. *)
Theorem getParent_agrees_with_args (txt : jsstring) (doc : DocumentNode)
  (calls : list Call) (s : JSONTraversalStep) :
  distinct_nodes (doc_node doc) ->
  existsb is_traverse calls = true ->
  s ∈ iterate (fst (traverse (run calls (new_JSONSourceCode txt doc)))) ->
  fst (args s) = target s
  /\ getParent (run calls (new_JSONSourceCode txt doc)) (target s) = snd (args s)
  /\ getParent (run calls (new_JSONSourceCode txt doc)) (doc_node doc) = None.
Proof.
  intros Hd Htr Hs. rewrite traverse_in_use in Hs.
  pose proof (run_traversal_state getText parseDirective parseJSONLikeConfig
                calls _ false (new_traversal_state txt doc)) as Hst.
  simpl in Hst. rewrite Htr in Hst. destruct Hst as [_ Hp].
  rewrite run_ast in Hp. unfold iterator in Hp.
  assert (Hget : forall it, it ∈ visitNode None (doc_node doc) ->
            getParent (run calls (new_JSONSourceCode txt doc)) (it_node it) = it_parent it).
  { intros it Hit. unfold getParent. rewrite Hp.
    destruct (visitNode_one_parent (doc_node doc) (it_node it) Hd
                (visitNode_nodes _ _ _ Hit)) as [parent Hone].
    rewrite (Hone it Hit eq_refl).
    destruct (fold_left record_parent (visitNode None (doc_node doc)) ∅
                !! node_id (it_node it)) as [p'|] eqn:Hlk.
    - destruct (record_parent_origin _ _ _ _ Hlk) as [(it' & Hit' & Hid & Hp') | Hempty];
        [|rewrite lookup_empty in Hempty; discriminate].
      rewrite <- (Hone it' Hit' Hid). symmetry. exact Hp'.
    - destruct parent as [p|]; [|reflexivity]. exfalso.
      assert (Hsome : is_Some (it_parent it)) by (rewrite (Hone it Hit eq_refl); eauto).
      pose proof (record_parent_defined _ ∅ it Hit Hsome) as [p' Hp'].
      congruence. }
  unfold walk in Hs. apply list_elem_of_fmap in Hs. destruct Hs as (it & -> & Hit).
  split; [reflexivity|]. split; [exact (Hget it Hit)|].
  apply (Hget (mkIteratorStep (doc_node doc) None (js "enter"))).
  rewrite visitNode_eq. left.
Qed.

End StepsAndParents.

(** ** The further properties on the sample documents *)

Lemma neighbours_round_trip_witness :
  (NoDup (start_of <$> sample_tokens) /\ NoDup (end_of <$> sample_tokens)
   /\ sample_tokens !! 2%nat = Some lbrace /\ sample_tokens !! 3%nat = Some rbrace)
  /\ getTokenAfter sample_instance (AToken lbrace) true = Returned (Ref rbrace)
  /\ getTokenBefore sample_instance (AToken rbrace) true = Returned (Ref lbrace).
Proof.
  assert (H1 : NoDup (start_of <$> sample_tokens)).
  { apply (bool_decide_unpack (NoDup (start_of <$> sample_tokens))). vm_compute. exact I. }
  assert (H2 : NoDup (end_of <$> sample_tokens)).
  { apply (bool_decide_unpack (NoDup (end_of <$> sample_tokens))). vm_compute. exact I. }
  split; [repeat split; try assumption; reflexivity|].
  exact (neighbours_round_trip sample_getText sample_parseDirective sample_parseJSONLikeConfig
           sample_text sample_root sample_tokens sample_calls 2%nat lbrace rbrace
           H1 H2 eq_refl eq_refl).
Defined.

Lemma comment_value_strips_delimiters_witness :
  (length (js "//") = 2%nat /\ length (js "*/") = 2%nat
   /\ tok_type comment_A = js "LineComment"
   /\ sample_getText (text sample_new) comment_A
      = js "//" ++ js " eslint-disable-line no-empty-keys -- reason")
  /\ getCommentValue sample_getText sample_new comment_A
     = Returned (js " eslint-disable-line no-empty-keys -- reason").
Proof.
  assert (H : sample_getText (text sample_new) comment_A
              = js "//" ++ js " eslint-disable-line no-empty-keys -- reason")
    by (vm_compute; reflexivity).
  split; [repeat split; try reflexivity; exact H|].
  exact (proj1 (comment_value_strips_delimiters sample_getText sample_new comment_A
                  (js "//") (js " eslint-disable-line no-empty-keys -- reason") (js "*/")
                  eq_refl eq_refl) eq_refl H).
Defined.

Lemma sample_comments_known : Forall line_or_block (comments sample_new).
Proof.
  change (comments sample_new)
    with [comment_C; comment_D; comment_A; comment_B; comment_note].
  repeat constructor; first [left; reflexivity | right; reflexivity].
Defined.

Lemma getInlineConfigNodes_filter_witness :
  (inlineConfigComments sample_new = None /\ Forall line_or_block (comments sample_new))
  /\ fst (getInlineConfigNodes sample_getText sample_new)
     = Returned (List.filter (comment_matches sample_getText sample_new) (comments sample_new)).
Proof.
  split; [split; [reflexivity | exact sample_comments_known]|].
  exact (proj1 (getInlineConfigNodes_filter sample_getText sample_new
                  eq_refl sample_comments_known)).
Defined.

Lemma unexpected_comment_type_throws_witness :
  (inlineConfigComments doc_comment_instance = None
   /\ comments doc_comment_instance
      = [sample_token "LineComment" 0 2 1 1 1 3] ++ doc_comment
        :: [sample_token "BlockComment" 13 17 1 14 1 18]
   /\ Forall line_or_block [sample_token "LineComment" 0 2 1 1 1 3]
   /\ ~ line_or_block doc_comment)
  /\ getDisableDirectives sample_getText sample_parseDirective doc_comment_instance
     = (Threw (Error (js "Unexpected comment type 'DocComment'")), doc_comment_instance).
Proof.
  assert (H2 : comments doc_comment_instance
               = [sample_token "LineComment" 0 2 1 1 1 3] ++ doc_comment
                 :: [sample_token "BlockComment" 13 17 1 14 1 18])
    by (vm_compute; reflexivity).
  assert (H3 : Forall line_or_block [sample_token "LineComment" 0 2 1 1 1 3])
    by (repeat constructor; left; reflexivity).
  assert (H4 : ~ line_or_block doc_comment)
    by (intros [H | H]; vm_compute in H; discriminate H).
  split; [repeat split; try assumption|].
  exact (proj1 (proj2
           (unexpected_comment_type_throws sample_getText sample_parseDirective
              sample_parseJSONLikeConfig doc_comment_instance _ doc_comment _
              eq_refl H2 H3 H4))).
Defined.

Lemma getDisableDirectives_output_witness :
  (fst (getInlineConfigNodes sample_getText sample_new)
   = Returned [comment_C; comment_D; comment_A; comment_B]
   /\ fst (getDisableDirectives sample_getText sample_parseDirective sample_new)
      = Returned (mkDisableDirectives [problem_B] [directive_A]))
  /\ (dir_node <$> [directive_A]) `sublist_of` [comment_C; comment_D; comment_A; comment_B]
  /\ Forall (fun dv => dir_type dv ∈ directive_types) [directive_A].
Proof.
  assert (H1 : fst (getInlineConfigNodes sample_getText sample_new)
               = Returned [comment_C; comment_D; comment_A; comment_B])
    by (vm_compute; reflexivity).
  assert (H2 : fst (getDisableDirectives sample_getText sample_parseDirective sample_new)
               = Returned (mkDisableDirectives [problem_B] [directive_A]))
    by (vm_compute; reflexivity).
  split; [split; assumption|].
  destruct (getDisableDirectives_output sample_getText sample_parseDirective sample_new
              _ _ H1 H2) as (Hsub & Hdirs & _).
  split; [exact Hsub|].
  eapply Forall_impl; [exact Hdirs|]. intros dv [Hty _]. exact Hty.
Defined.

Lemma applyInlineConfig_output_witness :
  (fst (getInlineConfigNodes sample_getText sample_new)
   = Returned [comment_C; comment_D; comment_A; comment_B]
   /\ fst (applyInlineConfig sample_getText sample_parseDirective
             sample_parseJSONLikeConfig sample_new)
      = Returned (mkInlineConfig [entry_C] [problem_D]))
  /\ (length [entry_C] + length [problem_D] <= 4)%nat.
Proof.
  assert (H1 : fst (getInlineConfigNodes sample_getText sample_new)
               = Returned [comment_C; comment_D; comment_A; comment_B])
    by (vm_compute; reflexivity).
  assert (H2 : fst (applyInlineConfig sample_getText sample_parseDirective
                      sample_parseJSONLikeConfig sample_new)
               = Returned (mkInlineConfig [entry_C] [problem_D]))
    by (vm_compute; reflexivity).
  split; [split; assumption|].
  exact (proj1 (proj2 (proj2
           (applyInlineConfig_output sample_getText sample_parseDirective
              sample_parseJSONLikeConfig sample_new _ _ H1 H2)))).
Defined.

Lemma getParent_agrees_with_args_witness :
  (distinct_nodes (doc_node tree_document)
   /\ existsb is_traverse [CallTraverse] = true
   /\ enter_step (Some tree_object) member_b
      ∈ iterate (fst (traverse
          (run sample_getText sample_parseDirective sample_parseJSONLikeConfig
             [CallTraverse] (new_JSONSourceCode tree_text tree_document)))))
  /\ getParent (run sample_getText sample_parseDirective sample_parseJSONLikeConfig
                  [CallTraverse] (new_JSONSourceCode tree_text tree_document)) member_b
     = Some tree_object.
Proof.
  assert (H3 : enter_step (Some tree_object) member_b
               ∈ iterate (fst (traverse
                   (run sample_getText sample_parseDirective sample_parseJSONLikeConfig
                      [CallTraverse] (new_JSONSourceCode tree_text tree_document))))).
  { apply (list_elem_of_lookup_2 _ 8%nat). vm_compute. reflexivity. }
  split; [repeat split; [exact tree_distinct_nodes | exact H3]|].
  exact (proj1 (proj2
           (getParent_agrees_with_args sample_getText sample_parseDirective
              sample_parseJSONLikeConfig tree_text tree_document [CallTraverse]
              (enter_step (Some tree_object) member_b) tree_distinct_nodes eq_refl H3))).
Defined.
